(** * pdf-merge.py: range parsing, merge and split, verified over a shallow embedding

    The program is a command-line script around the pypdf library.  The
    embedding follows [src/pdf-merge.py] function by function:

    - Python's [str] is Rocq's [string]; a character is a code point below
      256.  The built-ins the script calls ([str.strip], [str.split],
      [int], [str.format], [str] of an integer) are embedded in module [Py]
      after CPython's behaviour on such strings.
    - Python's [int] is [Z].
    - [err] prints a message and raises [SystemExit]; an exception that
      nothing catches ends the process with a traceback.  Both are results
      of type [outcome]: [Exit code message] and [Raise e].
    - The file system is a finite map from path strings to files, threaded
      through [merge_cmd] and [split_cmd] together with the trace of the
      paths written.
    - [merge_cmd] and [split_cmd] are given twice.  First where every
      directory can be made and every write is accepted, so that [mkdir]
      changes nothing the model holds and writing always stores the
      document.  Then, in module [Os], with [mkdir], [open] for writing
      and [write] answered by the operating system, which may refuse at
      each call.  The first pair is the second at an operating system
      that never refuses ([os_merge_cmd_plain], [os_split_cmd_plain]). *)

From Stdlib Require Import ZArith Ascii DecimalString Lia.
From Stdlib Require DecimalFacts DecimalPos.
From stdpp Require Import base option list strings gmap.

Open Scope Z_scope.

(** ** Results of a run *)

(** The exceptions that reach the top: [OSError class path] stands for
    the other exceptions of the operating system, by class name
    ([FileExistsError], [PermissionError], ...). *)
Inductive exn : Type :=
  | FileNotFoundError (path : string)
  | PdfReadError (path : string)
  | ValueError (msg : string)
  | KeyError (key : string)
  | IndexError
  | OSError (class path : string)
  | OutsideFragment (what : string).

Inductive outcome (A : Type) : Type :=
  | Ok (a : A)
  | Exit (code : Z) (stderr : string)
  | Raise (e : exn).

Arguments Ok {A} a.
Arguments Exit {A} code stderr.
Arguments Raise {A} e.

Global Instance outcome_ret : MRet outcome := fun A a => Ok a.
Global Instance outcome_bind : MBind outcome := fun A B k m =>
  match m with
  | Ok a => k a
  | Exit c s => Exit c s
  | Raise e => Raise e
  end.

(** [err(msg, code=2)]: the message goes to the error stream and the
    process exits; every call in the script uses the default code. *)
Definition err {A} (msg : string) : outcome A := Exit 2 msg.

Global Instance outcome_fmap : FMap outcome := fun A B f m =>
  match m with
  | Ok a => Ok (f a)
  | Exit c s => Exit c s
  | Raise e => Raise e
  end.

(** ** The Python built-ins the script relies on *)

Module Py.

Definition code (c : ascii) : Z := Z.of_N (N_of_ascii c).

(** [str.isspace] on one character, for code points below 256: the set
    [str.strip()] removes. *)
Definition isspace (c : ascii) : bool :=
  let n := code c in
  ((9 <=? n) && (n <=? 13)) || ((28 <=? n) && (n <=? 31))
  || (n =? 32) || (n =? 133) || (n =? 160).

(** The white space [int] skips around a literal: C's [isspace] on the
    ASCII range, and the two non-ASCII spaces below 256 which the
    conversion first turns into a blank. *)
Definition int_space (c : ascii) : bool :=
  let n := code c in
  ((9 <=? n) && (n <=? 13)) || (n =? 32) || (n =? 133) || (n =? 160).

Fixpoint drop_while (p : ascii -> bool) (s : string) : string :=
  match s with
  | String c r => if p c then drop_while p r else s
  | EmptyString => EmptyString
  end.

Fixpoint all_chars (p : ascii -> bool) (s : string) : bool :=
  match s with
  | String c r => p c && all_chars p r
  | EmptyString => true
  end.

Definition lstrip (s : string) : string := drop_while isspace s.
Definition rstrip (s : string) : string :=
  String.rev (drop_while isspace (String.rev s)).

(** [s.strip()] *)
Definition strip (s : string) : string := rstrip (lstrip s).

(** [sep in s], for a one-character [sep]. *)
Fixpoint contains (sep : ascii) (s : string) : bool :=
  match s with
  | String c r => if Ascii.eqb c sep then true else contains sep r
  | EmptyString => false
  end.

(** [s.startswith(sep)] and [s.endswith(sep)], for a one-character [sep]. *)
Definition startswith (sep : ascii) (s : string) : bool :=
  match s with
  | String c _ => Ascii.eqb c sep
  | EmptyString => false
  end.

Fixpoint endswith (sep : ascii) (s : string) : bool :=
  match s with
  | String c EmptyString => Ascii.eqb c sep
  | String _ r => endswith sep r
  | EmptyString => false
  end.

(** [s[1:]] and [s[:-1]] *)
Definition drop_first (s : string) : string :=
  match s with
  | String _ r => r
  | EmptyString => EmptyString
  end.

Fixpoint drop_last (s : string) : string :=
  match s with
  | String _ EmptyString => EmptyString
  | String c r => String c (drop_last r)
  | EmptyString => EmptyString
  end.

(** [s.split(sep, 1)]: the text before the first [sep] and the text
    after it; a string without [sep] is returned whole. *)
Fixpoint split_once (sep : ascii) (s : string) : string * option string :=
  match s with
  | String c r =>
      if Ascii.eqb c sep then (EmptyString, Some r)
      else let '(a, b) := split_once sep r in (String c a, b)
  | EmptyString => (EmptyString, None)
  end.

(** [s.split(sep)]: every occurrence of [sep] cuts; [n] separators give
    [n + 1] pieces, some of them possibly empty. *)
Fixpoint split (sep : ascii) (s : string) : list string :=
  match s with
  | String c r =>
      if Ascii.eqb c sep then EmptyString :: split sep r
      else match split sep r with
           | p :: ps => String c p :: ps
           | [] => [String c EmptyString]
           end
  | EmptyString => [EmptyString]
  end.

Definition digit_value (c : ascii) : option Z :=
  let n := code c in
  if (48 <=? n) && (n <=? 57) then Some (n - 48) else None.

(** The digit loop of [int]: decimal digits with single underscores
    between them.  Returns the value read, the number of digits and the
    text left over; [None] is a syntax error (a doubled or a trailing
    underscore). *)
Fixpoint scan_digits (s : string) (prev_underscore : bool) (value digits : Z)
  : option (Z * Z * string) :=
  match s with
  | String c r =>
      if Ascii.eqb c "_" then
        if prev_underscore then None else scan_digits r true value digits
      else
        match digit_value c with
        | Some d => scan_digits r false (10 * value + d) (digits + 1)
        | None => if prev_underscore then None else Some (value, digits, s)
        end
  | EmptyString => if prev_underscore then None else Some (value, digits, s)
  end.

Section Int.
(** [sys.get_int_max_str_digits()]: 4300 unless reconfigured, 0 for no
    limit.  The interpreter applies it only above 640 digits. *)
Variable max_str_digits : Z.

(** [int(s)] in base 10; [None] stands for [ValueError]. *)
Definition int (s : string) : option Z :=
  let s1 := drop_while int_space s in
  let '(negative, s2) :=
    match s1 with
    | String c r =>
        if Ascii.eqb c "+" then (false, r)
        else if Ascii.eqb c "-" then (true, r)
        else (false, s1)
    | EmptyString => (false, s1)
    end in
  if startswith "_" s2 then None
  else
    match scan_digits s2 false 0 0 with
    | None => None
    | Some (value, digits, rest) =>
        if digits =? 0 then None
        else if (640 <? digits) && (0 <? max_str_digits)
                && (max_str_digits <? digits) then None
        else if all_chars int_space rest
             then Some (if negative then - value else value)
             else None
    end.
End Int.

(** [str(n)] for an integer. *)
Definition str (n : Z) : string := NilZero.string_of_int (Z.to_int n).

(** ["\n".join(parts)] and friends. *)
Fixpoint join (sep : string) (parts : list string) : string :=
  match parts with
  | [] => EmptyString
  | [p] => p
  | p :: ps => p +:+ sep +:+ join sep ps
  end.

(** [pattern.format] with keyword arguments, on the fragment of the
    format language made of literal text, the two doubled-brace escapes
    and plain fields (a name between braces).  [kwargs] holds each
    keyword with its value already rendered, as [format] with an empty
    specification renders it.  A field with a conversion, a format
    specification, an attribute or an index, and a numbered field, are
    outside the fragment: on them the result is [OutsideFragment], which
    marks the edge of the embedding and is no exception of Python (such
    a pattern may format well, or raise something else).  While a field
    is being read, [field] holds the part of its name read so far. *)
Definition field_value (kwargs : list (string * string)) (name : string)
  : outcome string :=
  if decide (name = EmptyString) then Raise IndexError
  else if all_chars (fun c => bool_decide (is_Some (digit_value c))) name
       then Raise (OutsideFragment "numbered field")
  else match list_find (fun kv => kv.1 = name) kwargs with
       | Some (_, (_, v)) => Ok v
       | None => Raise (KeyError name)
       end.

Fixpoint format_from (kwargs : list (string * string)) (field : option string)
    (s : string) : outcome string :=
  match field, s with
  | None, EmptyString => Ok EmptyString
  | None, String c r =>
      if Ascii.eqb c "{" then
        match r with
        | EmptyString =>
            Raise (ValueError "Single '{' encountered in format string")
        | String c' r' =>
            if Ascii.eqb c' "{" then String "{" <$> format_from kwargs None r'
            else format_from kwargs (Some EmptyString) r
        end
      else if Ascii.eqb c "}" then
        match r with
        | String c' r' =>
            if Ascii.eqb c' "}" then String "}" <$> format_from kwargs None r'
            else Raise (ValueError "Single '}' encountered in format string")
        | EmptyString =>
            Raise (ValueError "Single '}' encountered in format string")
        end
      else String c <$> format_from kwargs None r
  | Some name, EmptyString =>
      Raise (ValueError "expected '}' before end of string")
  | Some name, String c r =>
      if Ascii.eqb c "}" then
        v ← field_value kwargs name;
        rest ← format_from kwargs None r;
        Ok (v +:+ rest)
      else if contains c "{[.!:" then
        Raise (OutsideFragment "field with a conversion, specification, attribute or index")
      else format_from kwargs (Some (name +:+ String c EmptyString)) r
  end.

Definition format (pattern : string) (kwargs : list (string * string))
  : outcome string :=
  format_from kwargs None pattern.

End Py.

(** ** Range parser *)

Section RangeParser.
Variable max_str_digits : Z.

Local Abbreviation int := (Py.int max_str_digits).

(** [tokens = [t.strip() for t in spec.split(",") if t.strip()]] *)
Definition tokens (spec : string) : list string :=
  filter (fun t => t <> EmptyString) (map Py.strip (Py.split "," spec)).

(** The conversions of one token, the four [try] blocks of the loop
    body: [None] when an [int] call raises [ValueError]. *)
Definition token_bounds (tok : string) (total_pages : Z) : option (Z * Z) :=
  if Py.contains "-" tok then
    if Py.startswith "-" tok then
      match int (Py.drop_first tok) with
      | Some end_ => Some (1, end_)
      | None => None
      end
    else if Py.endswith "-" tok then
      match int (Py.drop_last tok) with
      | Some start => Some (start, total_pages)
      | None => None
      end
    else
      let '(a, b) := Py.split_once "-" tok in
      match int a, int (default EmptyString b) with
      | Some start, Some end_ => Some (start, end_)
      | _, _ => None
      end
  else
    match int tok with
    | Some n => Some (n, n)
    | None => None
    end.

Definition msg_invalid (tok : string) : string :=
  "Invalid range token: '" +:+ tok +:+ "'".
Definition msg_positive (tok : string) : string :=
  "Range must be positive: '" +:+ tok +:+ "'".
Definition msg_inverted (tok : string) : string :=
  "Range start > end: '" +:+ tok +:+ "'".
Definition msg_bounds (total_pages : Z) (tok : string) : string :=
  "Range out of bounds for file with " +:+ Py.str total_pages
    +:+ " pages: " +:+ tok.
Definition msg_empty : string := "No pages matched ranges: (empty spec)".

(** The body of [for tok in tokens], up to [result.append]. *)
Definition parse_token (tok : string) (total_pages : Z) : outcome (Z * Z) :=
  if decide (tok = "-") then err "Invalid range token: '-'"
  else
    match token_bounds tok total_pages with
    | None => err (msg_invalid tok)
    | Some (start, end_) =>
        if (start <=? 0) || (end_ <=? 0) then err (msg_positive tok)
        else if start >? end_ then err (msg_inverted tok)
        else if (start >? total_pages) || (end_ >? total_pages)
             then err (msg_bounds total_pages tok)
        else Ok (start, end_)
    end.

(** The loop, with [result] as its accumulator. *)
Fixpoint parse_loop (toks : list string) (total_pages : Z)
    (result : list (Z * Z)) : outcome (list (Z * Z)) :=
  match toks with
  | [] => Ok result
  | tok :: rest =>
      r ← parse_token tok total_pages;
      parse_loop rest total_pages (result ++ [r])
  end.

Definition parse_ranges (spec : string) (total_pages : Z)
  : outcome (list (Z * Z)) :=
  match tokens spec with
  | [] => err msg_empty
  | toks =>
      result ← parse_loop toks total_pages [];
      match result with
      | [] => err ("No pages matched ranges: " +:+ spec)
      | _ => Ok result
      end
  end.

End RangeParser.

(** ** Split file names *)

(** [make_split_name(base, start, end, pattern)].  [if pattern:] is false
    for [None] and for the empty string alike. *)
Definition make_split_name (base : string) (start end_ : Z)
    (pattern : option string) : outcome string :=
  match pattern with
  | Some p =>
      if decide (p ≠ EmptyString) then
        Py.format p
          [("base", base);
           ("page", if start =? end_ then Py.str start else "None");
           ("start", Py.str start);
           ("end", Py.str end_)]
      else if start =? end_ then Ok (base +:+ "_p" +:+ Py.str start +:+ ".pdf")
      else Ok (base +:+ "_p" +:+ Py.str start +:+ "-" +:+ Py.str end_ +:+ ".pdf")
  | None =>
      if start =? end_ then Ok (base +:+ "_p" +:+ Py.str start +:+ ".pdf")
      else Ok (base +:+ "_p" +:+ Py.str start +:+ "-" +:+ Py.str end_ +:+ ".pdf")
  end.

(** *** Patterns as data

    A name pattern seen as a sequence of literal texts and fields, with
    the text it is written as: braces of a literal are doubled, a field
    is its name between braces. *)

Inductive piece : Type :=
  | Lit (text : string)
  | Field (name : string).

Fixpoint escape (s : string) : string :=
  match s with
  | String c r =>
      if Ascii.eqb c "{" then String "{" (String "{" (escape r))
      else if Ascii.eqb c "}" then String "}" (String "}" (escape r))
      else String c (escape r)
  | EmptyString => EmptyString
  end.

Definition render_piece (p : piece) : string :=
  match p with
  | Lit text => escape text
  | Field name => "{" +:+ name +:+ "}"
  end.

Fixpoint render_pattern (ps : list piece) : string :=
  match ps with
  | [] => EmptyString
  | p :: rest => render_piece p +:+ render_pattern rest
  end.

Definition known_piece (p : piece) : Prop :=
  match p with
  | Lit _ => True
  | Field name => name ∈ ["base"; "page"; "start"; "end"]
  end.

(** What the code puts in place of each piece. *)
Definition fill_piece (base : string) (start end_ : Z) (p : piece) : string :=
  match p with
  | Lit text => text
  | Field name =>
      if decide (name = "base") then base
      else if decide (name = "page") then
        (if start =? end_ then Py.str start else "None")
      else if decide (name = "start") then Py.str start
      else Py.str end_
  end.

Fixpoint fill (base : string) (start end_ : Z) (ps : list piece) : string :=
  match ps with
  | [] => EmptyString
  | p :: rest => fill_piece base start end_ p +:+ fill base start end_ rest
  end.

(** The specification's reading of the same substitution: the page field
    is the start page on a single-page range and empty otherwise. *)
Definition spec_fill_piece (base : string) (start end_ : Z) (p : piece)
  : string :=
  match p with
  | Lit text => text
  | Field name =>
      if decide (name = "base") then base
      else if decide (name = "page") then
        (if start =? end_ then Py.str start else EmptyString)
      else if decide (name = "start") then Py.str start
      else Py.str end_
  end.

Fixpoint spec_fill (base : string) (start end_ : Z) (ps : list piece)
  : string :=
  match ps with
  | [] => EmptyString
  | p :: rest =>
      spec_fill_piece base start end_ p +:+ spec_fill base start end_ rest
  end.

(** ** Documents and the file system

    What the script sees of a PDF through pypdf: whether it is encrypted
    and which passwords open it, its information dictionary, its pages in
    native order.  A page is opaque.  A metadata value is [Some s] for
    an object whose [str] is [s], and [None] for Python's [None]: the
    script tests for it, pypdf hands over objects only.  A null stored in
    a PDF arrives as the object [NullObject]. *)

Inductive page : Type := Page (content : string).

Record document : Type := Document {
  protection : option (list string);
  metadata : option (gmap string (option string));
  pages : list page
}.

(** [str(NullObject())] *)
Definition NullObject : option string := Some "NullObject".

Inductive file : Type :=
  | PdfFile (d : document)
  | OtherFile (content : string).

(** The file map is keyed by path strings, two different strings naming
    two different files; directories are not represented.  [written]
    lists, oldest first, the paths opened for writing. *)
Record world : Type := World {
  files : gmap string file;
  written : list string
}.

Definition M (A : Type) : Type := world -> outcome A * world.

Global Instance M_ret : MRet M := fun A a w => (Ok a, w).
Global Instance M_bind : MBind M := fun A B k m w =>
  match m w with
  | (Ok a, w') => k a w'
  | (Exit c s, w') => (Exit c s, w')
  | (Raise e, w') => (Raise e, w')
  end.

Definition lift {A} (o : outcome A) : M A := fun w => (o, w).

(** [path.exists()] *)
Definition exists_ (path : string) : M bool :=
  fun w => (Ok (bool_decide (is_Some (files w !! path))), w).

(** [PdfReader(open(path, "rb"))]: a missing file raises from [open], a
    file that is no PDF raises from the reader.  The reader holds the
    document as stored when it was opened; pypdf copies a page into the
    writer when [add_page] is called, so later writes do not reach it. *)
Definition read_pdf (path : string) : M document :=
  fun w =>
    match files w !! path with
    | None => (Raise (FileNotFoundError path), w)
    | Some (OtherFile _) => (Raise (PdfReadError path), w)
    | Some (PdfFile d) => (Ok d, w)
    end.

(** [with path.open("wb") as f: writer.write(f)], where the write is
    accepted; [Os.write_pdf] below has the ways it can fail. *)
Definition write_pdf (path : string) (d : document) : M unit :=
  fun w => (Ok (), {| files := <[path := PdfFile d]> (files w);
                      written := written w ++ [path] |}).

Definition is_encrypted (d : document) : bool :=
  bool_decide (is_Some (protection d)).

(** [reader.decrypt(password)], as a truth value. *)
Definition decrypt (d : document) (password : string) : bool :=
  match protection d with
  | Some accepted => bool_decide (password ∈ accepted)
  | None => false
  end.

(** Truth value of an optional string: [None] and the empty string are
    false. *)
Definition truthy (s : option string) : bool :=
  match s with
  | Some s => bool_decide (s ≠ EmptyString)
  | None => false
  end.

(** [require_exists(path)] *)
Definition require_exists (path : string) : M unit :=
  e ← exists_ path;
  if e : bool then mret () else lift (err ("Input not found: " +:+ path)).

(** The decryption steps both commands apply to a reader just opened. *)
Definition unlock (path : string) (d : document) (password : option string)
  : outcome unit :=
  if is_encrypted d then
    if negb (truthy password) then
      err ("File is encrypted: " +:+ path +:+ " (pass --password)")
    else if negb (decrypt d (default EmptyString password)) then
      err ("Failed to decrypt: " +:+ path +:+ " (check --password)")
    else Ok ()
  else Ok ().

(** [open_reader(path, password)].  The script defines it and never
    calls it: both commands open their inputs inline. *)
Definition open_reader (path : string) (password : option string)
  : M document :=
  _ ← require_exists path;
  reader ← read_pdf path;
  _ ← lift (unlock path reader password);
  mret reader.

(** ** The output document under construction

    [w_metadata] is the writer's information dictionary.  pypdf creates
    it with the entry [/Producer] set to [pypdf]; [add_metadata] updates
    it, an entry handed over replacing one already there. *)

Record writer : Type := Writer {
  w_metadata : option (gmap string string);
  w_pages : list page
}.

Definition PdfWriter : writer :=
  Writer (Some {["/Producer" := "pypdf"]}) [].

Definition add_metadata (md : gmap string string) (w : writer) : writer :=
  Writer (Some (md ∪ default ∅ (w_metadata w))) (w_pages w).

Definition add_page (p : page) (w : writer) : writer :=
  Writer (w_metadata w) (w_pages w ++ [p]).

(** The document [writer.write] leaves in the file. *)
Definition written_document (w : writer) : document :=
  Document None
    (match w_metadata w with
     | Some md => Some (Some <$> md)
     | None => None
     end)
    (w_pages w).

(** [reader.pages[i]], with Python's negative indices. *)
Definition get_page (ps : list page) (i : Z) : outcome page :=
  let n := Z.of_nat (length ps) in
  let j := if i <? 0 then i + n else i in
  if j <? 0 then Raise IndexError
  else match ps !! Z.to_nat j with
       | Some p => Ok p
       | None => Raise IndexError
       end.

Section Commands.
Variable max_str_digits : Z.

(** pathlib, taken as given: [Path s] is [str(Path(s))],
    [joinpath d name] is [str(d / name)] and [stem p] is [p.stem]. *)
Variable Path : string -> string.
Variable joinpath : string -> string -> string.
Variable stem : string -> string.

(** *** merge *)

(** The loop that opens the inputs; [readers] is built in input order. *)
Fixpoint open_inputs (inputs : list string) (password : option string)
  : M (list document) :=
  match inputs with
  | [] => mret []
  | path :: rest =>
      r ← read_pdf path;
      _ ← lift (unlock path r password);
      readers ← open_inputs rest password;
      mret (r :: readers)
  end.

(** The dictionary [md] built from the first reader's metadata. *)
Definition preserved_metadata (m : gmap string (option string))
  : gmap string string :=
  default EmptyString <$>
    filter (fun kv => kv.1 ≠ EmptyString ∧ Py.startswith "/" kv.1 = true) m.

Definition with_first_metadata (readers : list document) (w : writer)
  : writer :=
  match readers with
  | r :: _ =>
      match metadata r with
      | Some m =>
          if decide (m ≠ ∅) then
            let md := preserved_metadata m in
            if decide (md ≠ ∅) then add_metadata md w else w
          else w
      | None => w
      end
  | [] => w
  end.

Definition add_all_pages (readers : list document) (w : writer) : writer :=
  foldl (fun w r => foldl (fun w p => add_page p w) w (pages r)) w readers.

(** [merge_cmd] where the directory of the output can be made and the
    write is accepted: [out_path.parent.mkdir] then changes nothing that
    [world] holds.  [Os.merge_cmd] has the call and its failure. *)
Definition merge_cmd (inputs : list string) (output : string)
    (password : option string) (overwrite : bool) : M unit :=
  let out_path := Path output in
  e ← exists_ out_path;
  if e && negb overwrite then
    lift (err ("Refusing to overwrite existing file: " +:+ out_path
               +:+ " (use --overwrite)"))
  else
    readers ← open_inputs inputs password;
    let w := with_first_metadata readers PdfWriter in
    let w := add_all_pages readers w in
    write_pdf out_path (written_document w).

(** *** split *)

(** The planning loop: one target path per range, in order. *)
Fixpoint plan (base out_dir : string) (name_pattern : option string)
    (ranges : list (Z * Z)) : outcome (list string) :=
  match ranges with
  | [] => Ok []
  | (a, b) :: rest =>
      name ← make_split_name base a b name_pattern;
      planned ← plan base out_dir name_pattern rest;
      Ok (joinpath out_dir name :: planned)
  end.

(** [[p for p in planned if p.exists()]] *)
Definition existing (planned : list string) : M (list string) :=
  fun w => (Ok (filter (fun p => is_Some (files w !! p)) planned), w).

Definition msg_clashes (clashes : list string) : string :=
  "Refusing to overwrite existing files:" +:+ String "010" EmptyString
    +:+ Py.join (String "010" EmptyString) clashes
    +:+ String "010" EmptyString +:+ "(use --overwrite)".

(** The pages of one segment: [reader.pages[i]] for [i] in
    [range(a - 1, b)]. *)
Fixpoint segment_pages (ps : list page) (indices : list Z)
  : outcome (list page) :=
  match indices with
  | [] => Ok []
  | i :: rest =>
      p ← get_page ps i;
      seg ← segment_pages ps rest;
      Ok (p :: seg)
  end.

Definition segment (reader : document) (a b : Z) : outcome document :=
  seg ← segment_pages (pages reader) (seqZ (a - 1) (b - (a - 1)));
  Ok (written_document (foldl (fun w p => add_page p w) PdfWriter seg)).

(** The writing loop over [zip(ranges, planned)]. *)
Fixpoint write_segments (reader : document)
    (todo : list ((Z * Z) * string)) : M unit :=
  match todo with
  | [] => mret ()
  | ((a, b), target) :: rest =>
      d ← lift (segment reader a b);
      _ ← write_pdf target d;
      write_segments reader rest
  end.

(** [split_cmd] where the output directory can be made and every write
    is accepted: [out_dir.mkdir] then changes nothing that [world]
    holds.  [Os.split_cmd] has the call and the failures. *)
Definition split_cmd (input_file ranges_spec outdir : string)
    (password name_pattern : option string) (overwrite : bool) : M unit :=
  let in_path := Path input_file in
  _ ← require_exists in_path;
  let out_dir := if decide (outdir ≠ EmptyString) then Path outdir
                 else Path "." in
  reader ← read_pdf in_path;
  _ ← lift (unlock in_path reader password);
  let total := Z.of_nat (length (pages reader)) in
  ranges ← lift (parse_ranges max_str_digits ranges_spec total);
  let base := stem in_path in
  planned ← lift (plan base out_dir name_pattern ranges);
  clashes ← existing planned;
  if bool_decide (clashes ≠ []) && negb overwrite then
    lift (err (msg_clashes clashes))
  else write_segments reader (zip ranges planned).

End Commands.

(** ** The commands on an operating system that can refuse

    [merge_cmd] and [split_cmd] above run where a directory can always
    be made and a file always be written: [mkdir] does nothing there and
    [write_pdf] always stores the document.  Module [Os] gives the same
    two functions with the calls that reach the operating system for
    writing answered by it:

    - [mkdir_error w dir] is the exception
      [dir.mkdir(parents=True, exist_ok=True)] raises in state [w], if it
      raises: [dir] or one of its parents is a regular file, a permission
      is missing.  Directories are not part of [world], so a directory
      made leaves [w] as it is.
    - [write_outcome w path] is how
      [with path.open("wb") as f: writer.write(f)] ends in state [w]:
      the document is stored; [open] raises and the path is left alone
      (its parent is missing, it is a directory, a permission is missing);
      or [write] raises after [open] emptied the file, and the path is left
      with the bytes that went out, which are no PDF. *)

Inductive write_result : Type :=
  | Written
  | Refused (e : exn)
  | Broken (e : exn) (remains : string).

Module Os.
Section Os.
Variable max_str_digits : Z.
Variable Path : string -> string.
Variable joinpath : string -> string -> string.
Variable stem : string -> string.

(** [parent p] is [str(p.parent)]. *)
Variable parent : string -> string.

Variable mkdir_error : world -> string -> option exn.
Variable write_outcome : world -> string -> write_result.

(** [dir.mkdir(parents=True, exist_ok=True)] *)
Definition mkdir (dir : string) : M unit :=
  fun w =>
    match mkdir_error w dir with
    | Some e => (Raise e, w)
    | None => (Ok (), w)
    end.

(** [with path.open("wb") as f: writer.write(f)] *)
Definition write_pdf (path : string) (d : document) : M unit :=
  fun w =>
    match write_outcome w path with
    | Written =>
        (Ok (), {| files := <[path := PdfFile d]> (files w);
                   written := written w ++ [path] |})
    | Refused e => (Raise e, w)
    | Broken e remains =>
        (Raise e, {| files := <[path := OtherFile remains]> (files w);
                     written := written w ++ [path] |})
    end.

Definition merge_cmd (inputs : list string) (output : string)
    (password : option string) (overwrite : bool) : M unit :=
  let out_path := Path output in
  e ← exists_ out_path;
  if e && negb overwrite then
    lift (err ("Refusing to overwrite existing file: " +:+ out_path
               +:+ " (use --overwrite)"))
  else
    readers ← open_inputs inputs password;
    let w := with_first_metadata readers PdfWriter in
    let w := add_all_pages readers w in
    _ ← mkdir (parent out_path);
    write_pdf out_path (written_document w).

(** The writing loop over [zip(ranges, planned)]. *)
Fixpoint write_segments (reader : document)
    (todo : list ((Z * Z) * string)) : M unit :=
  match todo with
  | [] => mret ()
  | ((a, b), target) :: rest =>
      d ← lift (segment reader a b);
      _ ← write_pdf target d;
      write_segments reader rest
  end.

Definition split_cmd (input_file ranges_spec outdir : string)
    (password name_pattern : option string) (overwrite : bool) : M unit :=
  let in_path := Path input_file in
  _ ← require_exists in_path;
  let out_dir := if decide (outdir ≠ EmptyString) then Path outdir
                 else Path "." in
  _ ← mkdir out_dir;
  reader ← read_pdf in_path;
  _ ← lift (unlock in_path reader password);
  let total := Z.of_nat (length (pages reader)) in
  ranges ← lift (parse_ranges max_str_digits ranges_spec total);
  let base := stem in_path in
  planned ← lift (plan joinpath base out_dir name_pattern ranges);
  clashes ← existing planned;
  if bool_decide (clashes ≠ []) && negb overwrite then
    lift (err (msg_clashes clashes))
  else write_segments reader (zip ranges planned).

End Os.
End Os.

(** ** Notions used in the statements *)

(** A range accepted against a document of [total_pages] pages. *)
Definition in_bounds (total_pages : Z) (r : Z * Z) : Prop :=
  1 <= r.1 /\ r.1 <= r.2 /\ r.2 <= total_pages.

(** The pages [a .. b] of a page list, counted from 1. *)
Definition page_range (ps : list page) (a b : Z) : list page :=
  take (Z.to_nat (b - a + 1)) (drop (Z.to_nat (a - 1)) ps).

(** The file a segment is written as. *)
Definition segment_file (reader : document) (r : Z * Z) : file :=
  PdfFile (Document None (Some {["/Producer" := Some "pypdf"]})
             (page_range (pages reader) r.1 r.2)).

(** The file map after the writes of a plan, in plan order. *)
Definition after_writes (reader : document) (fs : gmap string file)
    (todo : list ((Z * Z) * string)) : gmap string file :=
  foldl (fun fs rt => <[rt.2 := segment_file reader rt.1]> fs) fs todo.

(** The state after the writes of a plan. *)
Definition world_after (reader : document) (w : world)
    (todo : list ((Z * Z) * string)) : world :=
  World (after_writes reader (files w) todo) (written w ++ todo.*2).

(** The output directory of a split. *)
Definition output_directory (Path : string -> string) (outdir : string)
  : string :=
  if decide (outdir ≠ EmptyString) then Path outdir else Path ".".

(** Every write of a plan is accepted when its turn comes: the write of
    entry [i] in the state the entries before it have left. *)
Definition accepted_along (write_outcome : world -> string -> write_result)
    (reader : document) (w : world) (todo : list ((Z * Z) * string)) : Prop :=
  forall (i : nat) rt,
    todo !! i = Some rt ->
    write_outcome (world_after reader w (take i todo)) rt.2 = Written.

(** The document a merge of [readers] writes. *)
Definition merged_document (readers : list document) : document :=
  written_document
    (add_all_pages readers (with_first_metadata readers PdfWriter)).

(** The operating system that never refuses, and one that refuses the
    directory or the file named. *)
Definition makes_any : world -> string -> option exn := fun _ _ => None.
Definition writes_any : world -> string -> write_result :=
  fun _ _ => Written.
Definition no_directory (dir : string) : world -> string -> option exn :=
  fun _ d =>
    if decide (d = dir) then Some (OSError "FileExistsError" dir) else None.

(** The first and the last character of a string. *)
Definition first_char (s : string) : option ascii :=
  match s with
  | String c _ => Some c
  | EmptyString => None
  end.

Fixpoint last_char (s : string) : option ascii :=
  match s with
  | String c EmptyString => Some c
  | String _ r => last_char r
  | EmptyString => None
  end.

(** A string with no white space at either end. *)
Definition stripped (s : string) : Prop :=
  (forall c, first_char s = Some c -> Py.isspace c = false) /\
  (forall c, last_char s = Some c -> Py.isspace c = false).

(** The number a sequence of decimal digits denotes, most significant
    digit first, on top of the value [acc] read so far. *)
Fixpoint uint_value (d : Decimal.uint) (acc : Z) : Z :=
  match d with
  | Decimal.Nil => acc
  | Decimal.D0 d => uint_value d (10 * acc + 0)
  | Decimal.D1 d => uint_value d (10 * acc + 1)
  | Decimal.D2 d => uint_value d (10 * acc + 2)
  | Decimal.D3 d => uint_value d (10 * acc + 3)
  | Decimal.D4 d => uint_value d (10 * acc + 4)
  | Decimal.D5 d => uint_value d (10 * acc + 5)
  | Decimal.D6 d => uint_value d (10 * acc + 6)
  | Decimal.D7 d => uint_value d (10 * acc + 7)
  | Decimal.D8 d => uint_value d (10 * acc + 8)
  | Decimal.D9 d => uint_value d (10 * acc + 9)
  end.

(** A character that is a decimal digit. *)
Definition is_digit (c : ascii) : bool :=
  bool_decide (is_Some (Py.digit_value c)).

(** How a range is written: [a-b]. *)
Definition range_text (r : Z * Z) : string :=
  Py.str r.1 +:+ "-" +:+ Py.str r.2.



(** pathlib on the plain paths of the examples below: a relative
    directory name, and file names with one suffix and no directory. *)
Definition plain_join (d name : string) : string := d +:+ "/" +:+ name.
Definition plain_stem (p : string) : string := (Py.split_once "." p).1.
Definition plain_parent (p : string) : string :=
  if Py.contains "/" p
  then String.rev (default EmptyString (Py.split_once "/" (String.rev p)).2)
  else ".".

(** Worlds for the examples below. *)
Definition doc_a : document :=
  Document None
    (Some {["/Title" := Some "Report"; "/Subject" := NullObject;
            "Note" := Some "n"]})
    [Page "a1"; Page "a2"].
Definition doc_b : document :=
  Document None (Some {["/Title" := Some "Other"; "/Author" := Some "B"]})
    [Page "b1"; Page "b2"; Page "b3"].
Definition world_ab : world :=
  World {["a.pdf" := PdfFile doc_a; "b.pdf" := PdfFile doc_b]} [].

Definition doc_bare : document := Document None None [Page "c1"].
Definition world_bare : world :=
  World {["c.pdf" := PdfFile doc_bare; "b.pdf" := PdfFile doc_b]} [].

Definition doc_locked : document :=
  Document (Some ["pw"]) None [Page "s1"].
Definition world_locked : world :=
  World {["a.pdf" := PdfFile doc_a; "s.pdf" := PdfFile doc_locked]} [].

(** * Properties of the range parser *)

Section RangeParserFacts.
Variable max_str_digits : Z.

Local Abbreviation MAX := max_str_digits.

Lemma parse_token_ok tok total_pages r :
  parse_token MAX tok total_pages = Ok r <->
  tok <> "-" /\ token_bounds MAX tok total_pages = Some r /\ in_bounds total_pages r.
Proof.
  unfold parse_token, in_bounds, err.
  destruct (decide (tok = "-")) as [->|Hne].
  { split; [discriminate | intros [[] _]; reflexivity]. }
  destruct (token_bounds MAX tok total_pages) as [[s e]|].
  2:{ split; [discriminate | intros (_ & [=] & _)]. }
  destruct (Z.leb_spec s 0), (Z.leb_spec e 0); simpl;
    try (split; [discriminate | intros (_ & [= <-] & ?); simpl in *; lia]).
  destruct (Z.gtb_spec s e); simpl;
    try (split; [discriminate | intros (_ & [= <-] & ?); simpl in *; lia]).
  destruct (Z.gtb_spec s total_pages), (Z.gtb_spec e total_pages); simpl;
    try (split; [discriminate | intros (_ & [= <-] & ?); simpl in *; lia]).
  split.
  - intros [= <-]. simpl. repeat split; auto; lia.
  - intros (_ & [= <-] & _). reflexivity.
Qed.

(** The loop appends one range per token, left to right, and stops at
    the first token that fails. *)
Lemma parse_loop_ok toks total_pages acc rs :
  parse_loop MAX toks total_pages acc = Ok rs <->
  exists rs', rs = acc ++ rs' /\
    Forall2 (fun tok r => parse_token MAX tok total_pages = Ok r) toks rs'.
Proof.
  revert acc rs. induction toks as [|tok toks IH]; intros acc rs; simpl.
  - split.
    + intros [= <-]. exists []. rewrite app_nil_r. split; [done | constructor].
    + intros (rs' & -> & H). inversion H. by rewrite app_nil_r.
  - destruct (parse_token MAX tok total_pages) as [r| |] eqn:Ht; simpl.
    + rewrite IH. split.
      * intros (rs' & -> & H). exists (r :: rs'). rewrite <- app_assoc.
        split; [done | by constructor].
      * intros (rs' & -> & H). inversion H as [|? r' ? rs'' Hr Hrest]; subst.
        assert (r' = r) as -> by congruence.
        exists rs''. by rewrite <- app_assoc.
    + split; [discriminate|]. intros (rs' & _ & H). inversion H; congruence.
    + split; [discriminate|]. intros (rs' & _ & H). inversion H; congruence.
Qed.

Lemma parse_loop_fails pre tok post total_pages acc c msg :
  Forall (fun t => exists r, parse_token MAX t total_pages = Ok r) pre ->
  parse_token MAX tok total_pages = Exit c msg ->
  parse_loop MAX (pre ++ tok :: post) total_pages acc = Exit c msg.
Proof.
  intros Hpre Htok. revert acc.
  induction Hpre as [|t pre [r Hr] _ IH]; intros acc; simpl.
  - by rewrite Htok.
  - rewrite Hr. simpl. apply IH.
Qed.

Lemma parse_ranges_ok spec total_pages rs :
  parse_ranges MAX spec total_pages = Ok rs <->
  tokens spec <> [] /\
  Forall2 (fun tok r => parse_token MAX tok total_pages = Ok r) (tokens spec) rs.
Proof.
  unfold parse_ranges.
  destruct (tokens spec) as [|tok toks] eqn:Htoks.
  { split; [discriminate | intros [[] _]; reflexivity]. }
  destruct (parse_loop MAX (tok :: toks) total_pages []) as [res| |] eqn:Hl; simpl.
  - apply parse_loop_ok in Hl as (rs' & -> & HF). simpl.
    inversion HF as [|? r ? rs'' Hr Hrest]; subst. split.
    + intros [= <-]. split; [done | by constructor].
    + intros [_ HF']. inversion HF' as [|? r' ? rs3 Hr' Hrest']; subst.
      f_equal. f_equal; [congruence|].
      clear -Hrest Hrest'. revert rs3 Hrest'.
      induction Hrest; intros rs3 H'; inversion H'; subst; [done|].
      f_equal; [congruence | auto].
  - split; [discriminate|]. intros [_ HF].
    assert (parse_loop MAX (tok :: toks) total_pages [] = Ok ([] ++ rs)) as E.
    { apply parse_loop_ok. eauto. }
    congruence.
  - split; [discriminate|]. intros [_ HF].
    assert (parse_loop MAX (tok :: toks) total_pages [] = Ok ([] ++ rs)) as E.
    { apply parse_loop_ok. eauto. }
    congruence.
Qed.

Lemma parse_token_cases tok total_pages :
  (exists r, parse_token MAX tok total_pages = Ok r) \/
  (exists msg, parse_token MAX tok total_pages = Exit 2 msg).
Proof.
  unfold parse_token, err.
  destruct (decide (tok = "-")); [eauto|].
  destruct (token_bounds MAX tok total_pages) as [[s e]|]; [|eauto].
  destruct ((s <=? 0) || (e <=? 0)); [eauto|].
  destruct (s >? e); [eauto|].
  destruct ((s >? total_pages) || (e >? total_pages)); eauto.
Qed.

(** Every list of tokens has a first failing token, or none. *)
Lemma first_failure toks total_pages :
  Forall (fun t => exists r, parse_token MAX t total_pages = Ok r) toks \/
  exists pre tok post msg, toks = pre ++ tok :: post /\
    Forall (fun t => exists r, parse_token MAX t total_pages = Ok r) pre /\
    parse_token MAX tok total_pages = Exit 2 msg.
Proof.
  induction toks as [|t toks IH]; [left; constructor|].
  destruct (parse_token_cases t total_pages) as [Hok|[msg Hmsg]].
  - destruct IH as [IH|(pre & tok & post & msg & -> & Hpre & Htok)].
    + left. by constructor.
    + right. exists (t :: pre), tok, post, msg. repeat split; auto.
  - right. exists [], t, toks, msg. repeat split; auto.
Qed.

Lemma parse_ranges_fails spec pre tok post total_pages msg :
  tokens spec = pre ++ tok :: post ->
  Forall (fun t => exists r, parse_token MAX t total_pages = Ok r) pre ->
  parse_token MAX tok total_pages = Exit 2 msg ->
  parse_ranges MAX spec total_pages = Exit 2 msg.
Proof.
  intros Htoks Hpre Htok. unfold parse_ranges. rewrite Htoks.
  destruct (pre ++ tok :: post) as [|t toks] eqn:E.
  { by destruct pre. }
  rewrite <- E.
  by rewrite (parse_loop_fails pre tok post total_pages [] 2 msg Hpre Htok).
Qed.

Lemma parse_ranges_in_bounds spec total_pages rs :
  parse_ranges MAX spec total_pages = Ok rs ->
  Forall (in_bounds total_pages) rs.
Proof.
  intros H. apply parse_ranges_ok in H as [_ HF].
  induction HF as [|tok r toks rs' Ht _ IH]; constructor; [|done].
  by apply parse_token_ok in Ht as (_ & _ & Hin).
Qed.

Lemma parse_ranges_single spec tok total_pages r :
  tokens spec = [tok] -> tok <> "-" ->
  token_bounds MAX tok total_pages = Some r -> in_bounds total_pages r ->
  parse_ranges MAX spec total_pages = Ok [r].
Proof.
  intros Htoks Hne Hb Hin. apply parse_ranges_ok. rewrite Htoks.
  split; [done|]. repeat constructor. by apply parse_token_ok.
Qed.

(** Strings that end in a dash. *)
Lemma append_cons c (s t : string) : String c s +:+ t = String c (s +:+ t).
Proof. reflexivity. Qed.








End RangeParserFacts.

(** * The claims about the range parser *)

Section RangeParserClaims.
Variable max_str_digits : Z.

Local Abbreviation MAX := max_str_digits.

(** C1.  Whenever [parse_ranges] succeeds, every range it returns lies
    within [1 .. total_pages] with its start not after its end, and the
    result holds exactly one range per token (the stripped, non-empty
    pieces between commas), in token order: the k-th range is the
    conversion of the k-th token, so nothing is reordered, dropped,
    de-duplicated or merged. *)
Theorem parse_ranges_bounds_and_order spec total_pages rs :
  parse_ranges MAX spec total_pages = Ok rs ->
  tokens spec
    = filter (fun t => t <> EmptyString) (Py.strip <$> Py.split "," spec) /\
  Forall (fun r => 1 <= r.1 /\ r.1 <= r.2 /\ r.2 <= total_pages) rs /\
  length rs = length (tokens spec) /\
  Forall2 (fun tok r => token_bounds MAX tok total_pages = Some r)
    (tokens spec) rs.
Proof.
  intros H. apply parse_ranges_ok in H as [_ HF].
  split; [reflexivity|].
  induction HF as [|tok r toks rs' Ht _ IH].
  - repeat split; constructor.
  - apply parse_token_ok in Ht as (_ & Hb & Hin).
    destruct IH as (IH1 & IH2 & IH3).
    repeat split; try constructor; simpl; auto; apply Hin.
Qed.

(** C3.  The parser reports the first token that fails and, for that
    token, the first check that fails, the checks being tried in the
    order: (1) the integer conversions, (2) start or end below 1,
    (3) start after end, (4) start or end above [total_pages].  A token
    that fails an earlier check reports that check whatever the later
    ones would say.  The five messages are pairwise different.  A spec
    with a bare dash among its tokens always fails, and a spec without
    tokens fails with the empty-spec message. *)
Theorem parse_ranges_validation_order spec total_pages :
  (tokens spec = [] -> parse_ranges MAX spec total_pages = Exit 2 msg_empty) /\
  ("-" ∈ tokens spec ->
     exists msg, parse_ranges MAX spec total_pages = Exit 2 msg) /\
  (forall pre tok post,
     tokens spec = pre ++ tok :: post ->
     Forall (fun t => exists r, parse_token MAX t total_pages = Ok r) pre ->
     (tok = "-" ->
        parse_ranges MAX spec total_pages = Exit 2 (msg_invalid "-")) /\
     (tok <> "-" ->
        match token_bounds MAX tok total_pages with
        | None => parse_ranges MAX spec total_pages = Exit 2 (msg_invalid tok)
        | Some (start, end_) =>
            (start < 1 \/ end_ < 1 ->
               parse_ranges MAX spec total_pages = Exit 2 (msg_positive tok)) /\
            (1 <= start -> 1 <= end_ -> end_ < start ->
               parse_ranges MAX spec total_pages = Exit 2 (msg_inverted tok)) /\
            (1 <= start -> start <= end_ ->
               total_pages < start \/ total_pages < end_ ->
               parse_ranges MAX spec total_pages
                 = Exit 2 (msg_bounds total_pages tok)) /\
            (1 <= start -> start <= end_ -> end_ <= total_pages ->
               parse_token MAX tok total_pages = Ok (start, end_))
        end)) /\
  (forall t1 t2 t3 t4 n,
     msg_invalid t1 <> msg_positive t2 /\ msg_invalid t1 <> msg_inverted t3 /\
     msg_invalid t1 <> msg_bounds n t4 /\ msg_positive t2 <> msg_inverted t3 /\
     msg_positive t2 <> msg_bounds n t4 /\ msg_inverted t3 <> msg_bounds n t4 /\
     msg_empty <> msg_invalid t1 /\ msg_empty <> msg_positive t2 /\
     msg_empty <> msg_inverted t3 /\ msg_empty <> msg_bounds n t4).
Proof.
  split; [|split; [|split]].
  - intros H. unfold parse_ranges. by rewrite H.
  - intros Hin.
    destruct (first_failure MAX (tokens spec) total_pages)
      as [Hall|(pre & tok & post & msg & E & Hpre & Htok)].
    + rewrite Forall_forall in Hall. destruct (Hall _ Hin) as [r Hr].
      apply parse_token_ok in Hr as [Hne _]. congruence.
    + exists msg. eapply parse_ranges_fails; eauto.
  - intros pre tok post E Hpre. split.
    + intros ->. eapply parse_ranges_fails; eauto.
    + intros Hne.
      assert (forall msg, parse_token MAX tok total_pages = Exit 2 msg ->
                parse_ranges MAX spec total_pages = Exit 2 msg) as Hfail.
      { intros msg Hm. eapply parse_ranges_fails; eauto. }
      unfold parse_token, err in *.
      destruct (decide (tok = "-")); [congruence|].
      destruct (token_bounds MAX tok total_pages) as [[s e]|]; [|by apply Hfail].
      repeat split.
      * intros Hlt. apply Hfail.
        destruct (Z.leb_spec s 0), (Z.leb_spec e 0); simpl; try reflexivity; lia.
      * intros Hs He Hse. apply Hfail.
        destruct (Z.leb_spec s 0), (Z.leb_spec e 0); simpl; try lia.
        destruct (Z.gtb_spec s e); [reflexivity | lia].
      * intros Hs Hse Hout. apply Hfail.
        destruct (Z.leb_spec s 0), (Z.leb_spec e 0); simpl; try lia.
        destruct (Z.gtb_spec s e); try lia.
        destruct (Z.gtb_spec s total_pages), (Z.gtb_spec e total_pages);
          simpl; try reflexivity; lia.
      * intros Hs Hse Hin.
        destruct (Z.leb_spec s 0), (Z.leb_spec e 0); simpl; try lia.
        destruct (Z.gtb_spec s e); try lia.
        destruct (Z.gtb_spec s total_pages), (Z.gtb_spec e total_pages);
          simpl; try reflexivity; lia.
  - intros t1 t2 t3 t4 n.
    repeat split; intros H; cbv in H; discriminate H.
Qed.


(** C9.  Tokens outside the written grammar are accepted when Python's
    [int] accepts their parts: with at least five pages, the spec with
    blanks around the dash parses to (1, 3) and the spec with a plus sign
    parses to (5, 5); neither is reported as an invalid token. *)
Theorem parse_ranges_accepts_blanks_and_plus total_pages :
  5 <= total_pages ->
  parse_ranges MAX "1 - 3" total_pages = Ok [(1, 3)] /\
  parse_ranges MAX "+5" total_pages = Ok [(5, 5)] /\
  Py.int MAX "1 " = Some 1 /\ Py.int MAX " 3" = Some 3 /\
  Py.int MAX "+5" = Some 5.
Proof.
  intros Htotal. repeat split; try (vm_compute; reflexivity).
  - apply (parse_ranges_single MAX _ "1 - 3"); [done..|].
    unfold in_bounds; simpl; lia.
  - apply (parse_ranges_single MAX _ "+5"); [done..|].
    unfold in_bounds; simpl; lia.
Qed.

End RangeParserClaims.

(** * Properties of the split file names *)

Section NameFacts.
Variables (base : string) (start end_ : Z).

Local Abbreviation kwargs :=
  [("base", base);
   ("page", if start =? end_ then Py.str start else "None");
   ("start", Py.str start);
   ("end", Py.str end_)].

Lemma append_assoc (a b c : string) : (a +:+ b) +:+ c = a +:+ (b +:+ c).
Proof. induction a as [|x a IH]; [done|]. rewrite !append_cons. by f_equal. Qed.

Lemma fmap_cons_append c (s : string) (o : outcome string) :
  String c <$> ((fun t => s +:+ t) <$> o) = (fun t => String c s +:+ t) <$> o.
Proof. by destruct o. Qed.

(** Reading an escaped literal gives the literal back. *)
Lemma format_literal kw (text rest : string) :
  Py.format_from kw None (escape text +:+ rest)
  = (fun t => text +:+ t) <$> Py.format_from kw None rest.
Proof.
  induction text as [|c text IH]; simpl.
  - change (EmptyString +:+ rest) with rest.
    by destruct (Py.format_from kw None rest).
  - destruct (Ascii.eqb c "{") eqn:Ho.
    + apply Ascii.eqb_eq in Ho as ->. rewrite !append_cons. simpl.
      rewrite IH. apply fmap_cons_append.
    + destruct (Ascii.eqb c "}") eqn:Hc.
      * apply Ascii.eqb_eq in Hc as ->. rewrite !append_cons. simpl.
        rewrite IH. apply fmap_cons_append.
      * rewrite append_cons. simpl. rewrite Ho, Hc.
        rewrite IH. apply fmap_cons_append.
Qed.

(** Reading one of the four fields gives its value. *)
Lemma format_field (name rest : string) :
  name ∈ ["base"; "page"; "start"; "end"] ->
  Py.format_from kwargs None (("{" +:+ name +:+ "}") +:+ rest)
  = (fun t => fill_piece base start end_ (Field name) +:+ t)
      <$> Py.format_from kwargs None rest.
Proof.
  intros Hin. rewrite !elem_of_cons, elem_of_nil in Hin.
  destruct Hin as [->|[->|[->|[->|[]]]]];
    unfold fill_piece; rewrite !append_assoc;
    repeat (rewrite append_cons; change (EmptyString +:+ ?x) with x);
    simpl; by destruct (Py.format_from _ None rest).
Qed.

Lemma format_pattern (ps : list piece) :
  Forall known_piece ps ->
  Py.format (render_pattern ps) kwargs = Ok (fill base start end_ ps).
Proof.
  unfold Py.format. induction 1 as [|p ps Hp _ IH]; [done|].
  change (Py.format_from kwargs None (render_piece p +:+ render_pattern ps)
          = Ok (fill_piece base start end_ p +:+ fill base start end_ ps)).
  destruct p as [text|name]; unfold render_piece.
  - by rewrite format_literal, IH.
  - by rewrite (format_field _ _ Hp), IH.
Qed.

End NameFacts.

(** * Properties of merge *)

Section MergeFacts.
Variable Path : string -> string.

(** Opening the inputs reads the file map and leaves the world as it is. *)
Lemma open_inputs_world inputs password w :
  (open_inputs inputs password w).2 = w.
Proof.
  induction inputs as [|path rest IH]; [done|].
  simpl. unfold mbind, M_bind, read_pdf, lift.
  destruct (files w !! path) as [[d|]|]; try done.
  destruct (unlock path d password); try done.
  specialize IH. destruct (open_inputs rest password w) as [[ds| |] w1]; done.
Qed.

Lemma open_inputs_ok inputs password w readers w' :
  open_inputs inputs password w = (Ok readers, w') ->
  w' = w /\
  Forall2 (fun path r => files w !! path = Some (PdfFile r)
                         /\ unlock path r password = Ok ()) inputs readers.
Proof.
  intros H. split.
  { pose proof (open_inputs_world inputs password w) as E. by rewrite H in E. }
  revert readers w' H. induction inputs as [|path rest IH]; intros readers w'.
  - intros [= <- _]. constructor.
  - simpl. unfold mbind, M_bind, read_pdf, lift.
    destruct (files w !! path) as [[d|]|] eqn:Hf; try discriminate.
    destruct (unlock path d password) as [[]| |] eqn:Hu; try discriminate.
    destruct (open_inputs rest password w) as [[ds| |] w1] eqn:Hr; try discriminate.
    intros [= <- _]. constructor; [done|]. by eapply IH.
Qed.

(** The first input that is missing stops the loop with the exception
    [open] raises. *)
Lemma open_inputs_missing pre path post password w :
  Forall (fun p => exists r, files w !! p = Some (PdfFile r)
                             /\ unlock p r password = Ok ()) pre ->
  files w !! path = None ->
  open_inputs (pre ++ path :: post) password w
  = (Raise (FileNotFoundError path), w).
Proof.
  intros Hpre Hmiss. induction Hpre as [|p pre (r & Hf & Hu) _ IH]; simpl.
  - unfold mbind, M_bind, read_pdf. by rewrite Hmiss.
  - unfold mbind, M_bind, read_pdf, lift. rewrite Hf, Hu.
    fold (open_inputs (pre ++ path :: post) password). by rewrite IH.
Qed.

Lemma add_pages_pages ps w :
  w_pages (foldl (fun w p => add_page p w) w ps) = w_pages w ++ ps.
Proof.
  revert w. induction ps as [|p ps IH]; intros w; simpl.
  - by rewrite app_nil_r.
  - rewrite IH. simpl. by rewrite <- app_assoc.
Qed.

Lemma add_pages_metadata ps w :
  w_metadata (foldl (fun w p => add_page p w) w ps) = w_metadata w.
Proof. revert w. induction ps as [|p ps IH]; intros w; simpl; [done|]. by rewrite IH. Qed.

Lemma add_all_pages_pages readers w :
  w_pages (add_all_pages readers w) = w_pages w ++ concat (pages <$> readers).
Proof.
  unfold add_all_pages. revert w.
  induction readers as [|r readers IH]; intros w; simpl.
  - by rewrite app_nil_r.
  - rewrite IH, add_pages_pages. by rewrite <- app_assoc.
Qed.

Lemma add_all_pages_metadata readers w :
  w_metadata (add_all_pages readers w) = w_metadata w.
Proof.
  unfold add_all_pages. revert w.
  induction readers as [|r readers IH]; intros w; simpl; [done|].
  by rewrite IH, add_pages_metadata.
Qed.

Lemma with_first_metadata_pages readers w :
  w_pages (with_first_metadata readers w) = w_pages w.
Proof.
  unfold with_first_metadata. destruct readers as [|r ?]; [done|].
  destruct (metadata r); [|done]. repeat case_decide; done.
Qed.

(** A merge whose output may be written and whose inputs all open
    succeeds. *)
Lemma open_inputs_succeeds inputs password w readers :
  Forall2 (fun path r => files w !! path = Some (PdfFile r)
                         /\ unlock path r password = Ok ()) inputs readers ->
  open_inputs inputs password w = (Ok readers, w).
Proof.
  induction 1 as [|path r inputs readers [Hf Hu] _ IH]; [done|].
  simpl. unfold mbind, M_bind, read_pdf, lift. rewrite Hf, Hu.
  fold (open_inputs inputs password). by rewrite IH.
Qed.

Lemma merge_cmd_succeeds inputs output password overwrite w readers :
  files w !! Path output = None \/ overwrite = true ->
  Forall2 (fun path r => files w !! path = Some (PdfFile r)
                         /\ unlock path r password = Ok ()) inputs readers ->
  (merge_cmd Path inputs output password overwrite w).1 = Ok ().
Proof.
  intros Hout HF. unfold merge_cmd, mbind, M_bind, exists_, lift, write_pdf.
  assert (bool_decide (is_Some (files w !! Path output)) && negb overwrite
          = false) as ->.
  { destruct Hout as [-> | ->]; [|by rewrite andb_false_r].
    rewrite bool_decide_false; [done|]. by intros [? ?]. }
  by rewrite (open_inputs_succeeds _ _ _ _ HF).
Qed.

(** A merge stopped by a missing input ends with the exception of [open]
    and writes nothing. *)
Lemma merge_cmd_missing_input pre path post output password overwrite w :
  files w !! Path output = None \/ overwrite = true ->
  Forall (fun p => exists r, files w !! p = Some (PdfFile r)
                             /\ unlock p r password = Ok ()) pre ->
  files w !! path = None ->
  merge_cmd Path (pre ++ path :: post) output password overwrite w
  = (Raise (FileNotFoundError path), w).
Proof.
  intros Hout Hpre Hmiss.
  unfold merge_cmd, mbind, M_bind, exists_, lift, write_pdf.
  assert (bool_decide (is_Some (files w !! Path output)) && negb overwrite
          = false) as ->.
  { destruct Hout as [-> | ->]; [|by rewrite andb_false_r].
    rewrite bool_decide_false; [done|]. by intros [? ?]. }
  by rewrite (open_inputs_missing _ _ _ _ _ Hpre Hmiss).
Qed.

(** What a successful merge did. *)
Lemma merge_cmd_ok inputs output password overwrite w w' :
  merge_cmd Path inputs output password overwrite w = (Ok (), w') ->
  exists readers,
    Forall2 (fun path r => files w !! path = Some (PdfFile r)
                           /\ unlock path r password = Ok ()) inputs readers /\
    w' = World
           (<[Path output :=
                PdfFile (written_document
                           (add_all_pages readers
                              (with_first_metadata readers PdfWriter)))]>
              (files w))
           (written w ++ [Path output]).
Proof.
  unfold merge_cmd, mbind, M_bind, exists_, lift, write_pdf.
  destruct (bool_decide _ && negb overwrite); [discriminate|].
  destruct (open_inputs inputs password w) as [[readers| |] w1] eqn:Ho;
    try discriminate.
  apply open_inputs_ok in Ho as [-> HF].
  intros [= <-]. by exists readers.
Qed.

End MergeFacts.

(** * The claims about merge *)

Section MergeClaims.
Variable Path : string -> string.

Lemma preserved_metadata_lookup (m : gmap string (option string)) k :
  preserved_metadata m !! k
  = match m !! k with
    | Some v => if Py.startswith "/" k then Some (default EmptyString v) else None
    | None => None
    end.
Proof.
  unfold preserved_metadata. rewrite lookup_fmap, map_lookup_filter.
  destruct (m !! k) as [v|]; [|done]. simpl.
  destruct (Py.startswith "/" k) eqn:Hs.
  - rewrite option_guard_True; [done|]. split; [|done]. by intros ->.
  - rewrite option_guard_False; [done|]. by intros [_ ?].
Qed.

Lemma length_concat_pages (readers : list document) :
  length (concat (pages <$> readers))
  = sum_list ((fun r => length (pages r)) <$> readers).
Proof.
  induction readers as [|r readers IH]; [done|].
  csimpl. rewrite length_app. by rewrite IH.
Qed.

(** C7.  After a successful merge the output file holds the pages of all
    the inputs and nothing else: the pages of the first input in their
    order, then those of the second, and so on; its page count is the
    sum of the inputs' page counts. *)
Theorem merge_concatenates_pages inputs output password overwrite w w' :
  merge_cmd Path inputs output password overwrite w = (Ok (), w') ->
  exists readers out,
    Forall2 (fun path r => files w !! path = Some (PdfFile r)) inputs readers /\
    files w' !! Path output = Some (PdfFile out) /\
    pages out = concat (pages <$> readers) /\
    length (pages out) = sum_list ((fun r => length (pages r)) <$> readers) /\
    written w' = written w ++ [Path output].
Proof.
  intros H. apply merge_cmd_ok in H as (readers & HF & ->).
  exists readers. eexists. split; [|split; [|split; [|split]]].
  - eapply Forall2_impl; [exact HF|]. by intros ?? [? _].
  - simpl. apply lookup_insert_eq.
  - simpl. by rewrite add_all_pages_pages, with_first_metadata_pages.
  - simpl. rewrite add_all_pages_pages, with_first_metadata_pages. simpl.
    apply length_concat_pages.
  - done.
Qed.

End MergeClaims.

(** * Properties of split *)

Section SplitFacts.
Variable max_str_digits : Z.
Variable Path : string -> string.
Variable joinpath : string -> string -> string.
Variable stem : string -> string.

Lemma get_page_ok ps i p :
  0 <= i -> ps !! Z.to_nat i = Some p -> get_page ps i = Ok p.
Proof.
  intros Hi Hp. unfold get_page.
  destruct (Z.ltb_spec i 0); [lia|].
  destruct (Z.ltb_spec i 0); [lia|]. by rewrite Hp.
Qed.

Lemma segment_pages_ok (ps : list page) m (n : nat) :
  0 <= m -> (Z.to_nat m + n <= length ps)%nat ->
  segment_pages ps (seqZ m (Z.of_nat n)) = Ok (take n (drop (Z.to_nat m) ps)).
Proof.
  revert m. induction n as [|n IH]; intros m Hm Hlen.
  - by rewrite seqZ_nil.
  - rewrite seqZ_cons by lia.
    replace (Z.pred (Z.of_nat (S n))) with (Z.of_nat n) by lia.
    destruct (lookup_lt_is_Some_2 ps (Z.to_nat m)) as [p Hp]; [lia|].
    simpl. rewrite (get_page_ok ps m p Hm Hp). simpl.
    rewrite IH by lia. simpl.
    rewrite (drop_S _ _ _ Hp). simpl.
    by replace (Z.to_nat (Z.succ m)) with (S (Z.to_nat m)) by lia.
Qed.

Lemma segment_ok reader a b :
  1 <= a -> a <= b -> b <= Z.of_nat (length (pages reader)) ->
  segment reader a b
  = Ok (Document None (Some {["/Producer" := Some "pypdf"]})
          (page_range (pages reader) a b)).
Proof.
  intros Ha Hab Hb. unfold segment, page_range.
  replace (b - (a - 1)) with (Z.of_nat (Z.to_nat (b - a + 1))) by lia.
  rewrite segment_pages_ok by lia. cbn [mbind outcome_bind].
  unfold written_document. rewrite add_pages_pages, add_pages_metadata.
  cbn [PdfWriter w_metadata w_pages app]. by rewrite map_fmap_singleton.
Qed.

Lemma write_segments_ok reader todo w :
  Forall (fun rt : (Z * Z) * string =>
            in_bounds (Z.of_nat (length (pages reader))) rt.1) todo ->
  write_segments reader todo w
  = (Ok (), World (after_writes reader (files w) todo)
                  (written w ++ todo.*2)).
Proof.
  intros H. revert w. induction H as [|[[a b] target] todo Hr _ IH]; intros w.
  - simpl. rewrite app_nil_r. by destruct w.
  - destruct Hr as (Ha & Hab & Hb). simpl in Ha, Hab, Hb.
    simpl. unfold mbind, M_bind, lift, write_pdf.
    rewrite (segment_ok reader a b Ha Hab Hb).
    rewrite IH. simpl. by rewrite <- app_assoc.
Qed.

Lemma plan_ok base out_dir pattern ranges planned :
  plan joinpath base out_dir pattern ranges = Ok planned ->
  Forall2 (fun (r : Z * Z) p =>
             exists name, make_split_name base r.1 r.2 pattern = Ok name
                          /\ p = joinpath out_dir name) ranges planned.
Proof.
  revert planned. induction ranges as [|[a b] ranges IH]; intros planned; simpl.
  - intros [= <-]. constructor.
  - destruct (make_split_name base a b pattern) as [name| |] eqn:Hn;
      try discriminate. simpl.
    destruct (plan joinpath base out_dir pattern ranges) as [ps| |];
      try discriminate. simpl.
    intros [= <-]. constructor; eauto.
Qed.

(** Once the input is open and the plan made, split either refuses or
    writes the whole plan. *)
Lemma split_cmd_planned input spec outdir password pattern overwrite
    w reader ranges planned :
  files w !! Path input = Some (PdfFile reader) ->
  unlock (Path input) reader password = Ok () ->
  parse_ranges max_str_digits spec (Z.of_nat (length (pages reader)))
    = Ok ranges ->
  plan joinpath (stem (Path input))
    (if decide (outdir ≠ EmptyString) then Path outdir else Path ".")
    pattern ranges = Ok planned ->
  split_cmd max_str_digits Path joinpath stem
    input spec outdir password pattern overwrite w
  = let clashes := filter (fun p => is_Some (files w !! p)) planned in
    if bool_decide (clashes ≠ []) && negb overwrite
    then (Exit 2 (msg_clashes clashes), w)
    else (Ok (), World (after_writes reader (files w) (zip ranges planned))
                       (written w ++ planned)).
Proof.
  intros Hf Hu Hp Hplan.
  unfold split_cmd, require_exists, mbind, M_bind, exists_, read_pdf, lift,
    existing.
  rewrite Hf. rewrite bool_decide_true by eauto.
  unfold mret, M_ret. rewrite Hf. cbn beta iota.
  rewrite Hu, Hp. cbn beta iota. rewrite Hplan. cbn beta iota zeta.
  destruct (bool_decide _ && negb overwrite); [done|].
  apply plan_ok in Hplan.
  apply parse_ranges_in_bounds in Hp as Hb.
  rewrite write_segments_ok.
  - rewrite snd_zip; [done|]. apply Forall2_length in Hplan. lia.
  - clear -Hb Hplan. induction Hplan; [constructor|].
    inversion Hb; subst. simpl. constructor; auto.
Qed.

End SplitFacts.

Section WriteOrder.
Variable reader : document.

Lemma after_writes_other fs todo (q : string) :
  q ∉ todo.*2 -> after_writes reader fs todo !! q = fs !! q.
Proof.
  revert fs. induction todo as [|[r t] todo IH]; intros fs Hq; [done|].
  simpl in *. apply not_elem_of_cons in Hq as [Hne Hq].
  unfold after_writes in *. simpl. rewrite IH by done.
  by rewrite lookup_insert_ne.
Qed.

(** The file left at a path is the segment of the last plan entry that
    targets it. *)
Lemma after_writes_last fs (todo : list ((Z * Z) * string)) k r q :
  todo !! k = Some (r, q) ->
  (forall k' r', (k < k')%nat -> todo !! k' <> Some (r', q)) ->
  after_writes reader fs todo !! q = Some (segment_file reader r).
Proof.
  revert fs k. induction todo as [|[r0 t0] todo IH]; intros fs k Hk Hlast.
  { by rewrite lookup_nil in Hk. }
  destruct k as [|k]; simpl in Hk.
  - injection Hk as -> ->. unfold after_writes. simpl.
    fold (after_writes reader (<[q:=segment_file reader r]> fs) todo).
    rewrite after_writes_other; [by rewrite lookup_insert_eq|].
    intros Hin. apply list_elem_of_fmap in Hin as ([r' q'] & -> & Hin).
    apply list_elem_of_lookup in Hin as [k' Hk'].
    apply (Hlast (S k') r'); [lia | done].
  - unfold after_writes. simpl.
    apply (IH _ k Hk). intros k' r' Hlt. apply (Hlast (S k') r'). lia.
Qed.

End WriteOrder.

Lemma append_nil_r (s : string) : s +:+ EmptyString = s.
Proof. induction s as [|c s IH]; [done|]. rewrite append_cons. by f_equal. Qed.


Lemma no_clashes (fs : gmap string file) (planned : list string) :
  Forall (fun p => fs !! p = None) planned ->
  filter (fun p => is_Some (fs !! p)) planned = [].
Proof.
  induction 1 as [|p planned Hp _ IH]; [done|].
  rewrite filter_cons_False; [done|]. rewrite Hp. by intros [? ?].
Qed.

(** * The claims about split *)

Section SplitClaims.
Variable max_str_digits : Z.
Variable Path : string -> string.
Variable joinpath : string -> string -> string.
Variable stem : string -> string.


End SplitClaims.

(** * The claims about file names *)

(** C8, as the code has it.  With a non-empty pattern made of literal
    text and the fields base, page, start and end, the name is the
    pattern with each field replaced by its value, the page field being
    the start page on a single-page range and the text [None] otherwise.
    Without a pattern, or with an empty one, the name is the base, [_p],
    the start page and [.pdf] for a single page, and the base, [_p],
    start, a dash, end and [.pdf] otherwise. *)
Theorem make_split_name_fills_pattern base start end_ :
  (forall ps,
     Forall known_piece ps -> render_pattern ps <> EmptyString ->
     make_split_name base start end_ (Some (render_pattern ps))
     = Ok (fill base start end_ ps)) /\
  fill_piece base start end_ (Field "page")
    = (if start =? end_ then Py.str start else "None") /\
  fill_piece base start end_ (Field "base") = base /\
  fill_piece base start end_ (Field "start") = Py.str start /\
  fill_piece base start end_ (Field "end") = Py.str end_ /\
  (forall pattern,
     pattern = None \/ pattern = Some EmptyString ->
     make_split_name base start end_ pattern
     = Ok (if start =? end_ then base +:+ "_p" +:+ Py.str start +:+ ".pdf"
           else base +:+ "_p" +:+ Py.str start +:+ "-" +:+ Py.str end_
                  +:+ ".pdf")).
Proof.
  split; [|repeat split].
  - intros ps Hps Hne. unfold make_split_name.
    rewrite decide_True by done. by apply format_pattern.
  - intros pattern [->| ->]; simpl; by destruct (start =? end_).
Qed.

(** * The claims at concrete inputs *)

Lemma parse_ranges_bounds_and_order_example :
  parse_ranges 4300 "1-3, 7,,9-,1-3" 10 = Ok [(1, 3); (7, 7); (9, 10); (1, 3)] /\
  tokens "1-3, 7,,9-,1-3" = ["1-3"; "7"; "9-"; "1-3"] /\
  Forall (fun r : Z * Z => 1 <= r.1 /\ r.1 <= r.2 /\ r.2 <= 10)
    [(1, 3); (7, 7); (9, 10); (1, 3)] /\
  Forall2 (fun tok r => token_bounds 4300 tok 10 = Some r)
    (tokens "1-3, 7,,9-,1-3") [(1, 3); (7, 7); (9, 10); (1, 3)].
Proof.
  assert (parse_ranges 4300 "1-3, 7,,9-,1-3" 10
          = Ok [(1, 3); (7, 7); (9, 10); (1, 3)]) as H by (vm_compute; reflexivity).
  destruct (parse_ranges_bounds_and_order 4300 _ _ _ H) as (_ & Hb & _ & Ho).
  split; [exact H|]. split; [vm_compute; reflexivity|]. split; [exact Hb|exact Ho].
Defined.


(** The token [0-11] fails the second check and the fourth; the second
    is the one reported, and the token after it is never looked at. *)
Lemma parse_ranges_validation_order_example :
  parse_ranges 4300 "2,0-11,x" 10 = Exit 2 "Range must be positive: '0-11'" /\
  parse_ranges 4300 "2,12-11" 10 = Exit 2 "Range start > end: '12-11'" /\
  parse_ranges 4300 " , " 10 = Exit 2 "No pages matched ranges: (empty spec)" /\
  exists msg, parse_ranges 4300 "1,-" 10 = Exit 2 msg.
Proof.
  split; [|split; [|split]].
  - destruct (parse_ranges_validation_order 4300 "2,0-11,x" 10)
      as (_ & _ & H & _).
    destruct (H ["2"] "0-11" ["x"]) as [_ H'].
    + vm_compute; reflexivity.
    + repeat constructor. exists (2, 2). vm_compute; reflexivity.
    + assert ("0-11" <> "-") as Hne by discriminate.
      specialize (H' Hne).
      change (token_bounds 4300 "0-11" 10) with (Some (0, 11)) in H'.
      destruct H' as [H' _]. apply H'. lia.
  - destruct (parse_ranges_validation_order 4300 "2,12-11" 10)
      as (_ & _ & H & _).
    destruct (H ["2"] "12-11" []) as [_ H'].
    + vm_compute; reflexivity.
    + repeat constructor. exists (2, 2). vm_compute; reflexivity.
    + assert ("12-11" <> "-") as Hne by discriminate.
      specialize (H' Hne).
      change (token_bounds 4300 "12-11" 10) with (Some (12, 11)) in H'.
      destruct H' as (_ & H' & _). apply H'; lia.
  - destruct (parse_ranges_validation_order 4300 " , " 10) as (H & _).
    apply H. vm_compute; reflexivity.
  - destruct (parse_ranges_validation_order 4300 "1,-" 10) as (_ & H & _).
    apply H. vm_compute. repeat constructor.
Defined.

Lemma parse_ranges_accepts_blanks_and_plus_example :
  parse_ranges 4300 "1 - 3" 5 = Ok [(1, 3)] /\
  parse_ranges 4300 "+5" 5 = Ok [(5, 5)].
Proof.
  destruct (parse_ranges_accepts_blanks_and_plus 4300 5) as (H1 & H2 & _);
    [lia|].
  split; [exact H1 | exact H2].
Defined.

Lemma make_split_name_fills_pattern_example :
  make_split_name "doc" 1 3 (Some "{base}-{start}to{end}-{page}.pdf")
    = Ok "doc-1to3-None.pdf" /\
  make_split_name "doc" 4 4 (Some "{base}-{page}.pdf") = Ok "doc-4.pdf" /\
  make_split_name "doc" 4 4 None = Ok "doc_p4.pdf" /\
  make_split_name "doc" 1 3 (Some EmptyString) = Ok "doc_p1-3.pdf".
Proof.
  split; [|split; [|split]].
  - destruct (make_split_name_fills_pattern "doc" 1 3) as (H & _).
    apply (H [Field "base"; Lit "-"; Field "start"; Lit "to"; Field "end";
              Lit "-"; Field "page"; Lit ".pdf"]).
    + repeat constructor; cbn; set_solver.
    + discriminate.
  - destruct (make_split_name_fills_pattern "doc" 4 4) as (H & _).
    apply (H [Field "base"; Lit "-"; Field "page"; Lit ".pdf"]).
    + repeat constructor; cbn; set_solver.
    + discriminate.
  - destruct (make_split_name_fills_pattern "doc" 4 4) as (_ & _ & _ & _ & _ & H).
    apply (H None). by left.
  - destruct (make_split_name_fills_pattern "doc" 1 3) as (_ & _ & _ & _ & _ & H).
    apply (H (Some EmptyString)). by right.
Defined.

(** C8 as the specification words it fails: on a range of several pages
    the page field becomes the text [None]; it is neither the empty text
    nor left in place. *)
Lemma make_split_name_page_field_not_empty :
  render_pattern [Field "base"; Lit "_"; Field "page"; Lit ".pdf"]
    = "{base}_{page}.pdf" /\
  spec_fill "doc" 1 3 [Field "base"; Lit "_"; Field "page"; Lit ".pdf"]
    = "doc_.pdf" /\
  make_split_name "doc" 1 3 (Some "{base}_{page}.pdf") = Ok "doc_None.pdf" /\
  make_split_name "doc" 1 3 (Some "{base}_{page}.pdf")
    <> Ok (spec_fill "doc" 1 3
             [Field "base"; Lit "_"; Field "page"; Lit ".pdf"]) /\
  make_split_name "doc" 1 3 (Some "{base}_{page}.pdf")
    <> Ok "doc_{page}.pdf".
Proof.
  split; [reflexivity|]. split; [reflexivity|].
  split; [reflexivity|]. split; vm_compute; discriminate.
Qed.

Lemma merge_concatenates_pages_example :
  exists w' out,
    merge_cmd id ["a.pdf"; "b.pdf"] "out.pdf" None false world_ab
      = (Ok (), w') /\
    files w' !! "out.pdf" = Some (PdfFile out) /\
    pages out = [Page "a1"; Page "a2"; Page "b1"; Page "b2"; Page "b3"] /\
    length (pages out) = 5%nat.
Proof.
  assert (exists w', merge_cmd id ["a.pdf"; "b.pdf"] "out.pdf" None false
                       world_ab = (Ok (), w')) as [w' H].
  { eexists. vm_compute. reflexivity. }
  destruct (merge_concatenates_pages id _ _ _ _ _ _ H)
    as (readers & out & HF & Ho & Hp & Hl & _).
  exists w', out. split; [exact H|]. split; [exact Ho|].
  assert (readers = [doc_a; doc_b]) as ->.
  { inversion HF as [|? ra ? rs Ha HF']; subst.
    inversion HF' as [|? rb ? rs' Hb HF'']; subst. inversion HF''; subst.
    assert (files world_ab !! "a.pdf" = Some (PdfFile doc_a)) as Ea
      by (vm_compute; reflexivity).
    assert (files world_ab !! "b.pdf" = Some (PdfFile doc_b)) as Eb
      by (vm_compute; reflexivity).
    unfold id in *. congruence. }
  split; [exact Hp|]. rewrite Hl. reflexivity.
Defined.

(** C6 at a failing input.  A missing input ends merge with the
    exception raised by [open], not with the exit that the message
    [Input not found] goes with; split, which calls [require_exists],
    exits with that message on the same path. *)
Lemma merge_missing_input_raises :
  merge_cmd id ["a.pdf"; "missing.pdf"] "out.pdf" None false world_ab
    = (Raise (FileNotFoundError "missing.pdf"), world_ab) /\
  merge_cmd id ["a.pdf"; "missing.pdf"] "out.pdf" None false world_ab
    <> (Exit 2 "Input not found: missing.pdf", world_ab) /\
  split_cmd 4300 id plain_join plain_stem
    "missing.pdf" "1" "out" None None false world_ab
    = (Exit 2 "Input not found: missing.pdf", world_ab) /\
  open_reader "missing.pdf" None world_ab
    = (Exit 2 "Input not found: missing.pdf", world_ab).
Proof.
  split; [vm_compute; reflexivity|].
  split; [|split; vm_compute; reflexivity].
  vm_compute. discriminate.
Qed.


(** * Further properties of the string built-ins *)

Section StringFacts.

Lemma rev_app_append (s acc : string) :
  String.rev_app s acc = String.rev s +:+ acc.
Proof.
  unfold String.rev. revert acc. induction s as [|a s IH]; intros acc; [done|].
  simpl. rewrite (IH (String a acc)), (IH (String a EmptyString)).
  by rewrite append_assoc.
Qed.

Lemma rev_cons a (s : string) :
  String.rev (String a s) = String.rev s +:+ String a EmptyString.
Proof. unfold String.rev at 1. simpl. apply rev_app_append. Qed.

Lemma rev_append (s t : string) :
  String.rev (s +:+ t) = String.rev t +:+ String.rev s.
Proof.
  induction s as [|a s IH].
  - change (EmptyString +:+ t) with t. by rewrite append_nil_r.
  - rewrite append_cons, !rev_cons, IH. by rewrite append_assoc.
Qed.

Lemma rev_involutive (s : string) : String.rev (String.rev s) = s.
Proof.
  induction s as [|a s IH]; [done|].
  by rewrite rev_cons, rev_append, IH.
Qed.

Lemma last_char_snoc (s : string) a :
  last_char (s +:+ String a EmptyString) = Some a.
Proof.
  induction s as [|b s IH]; [done|].
  rewrite append_cons. simpl. rewrite IH.
  destruct s; reflexivity.
Qed.

Lemma last_char_rev (s : string) : last_char (String.rev s) = first_char s.
Proof. destruct s as [|a s]; [done|]. rewrite rev_cons. apply last_char_snoc. Qed.

Lemma first_char_rev (s : string) : first_char (String.rev s) = last_char s.
Proof. by rewrite <- last_char_rev, rev_involutive. Qed.

Lemma first_char_append (s t : string) :
  s <> EmptyString -> first_char (s +:+ t) = first_char s.
Proof. by destruct s. Qed.

Lemma drop_while_split p (s : string) :
  exists v, s = v +:+ Py.drop_while p s /\ Py.all_chars p v = true.
Proof.
  induction s as [|a s (v & E & Hv)]; [by exists EmptyString|].
  simpl. destruct (p a) eqn:Hp.
  - exists (String a v). rewrite append_cons, <- E. simpl. by rewrite Hp, Hv.
  - by exists EmptyString.
Qed.

Lemma first_char_drop_while p (s : string) c :
  first_char (Py.drop_while p s) = Some c -> p c = false.
Proof.
  induction s as [|a s IH]; [done|]. simpl.
  destruct (p a) eqn:Hp; [done|]. by intros [= <-].
Qed.

Lemma drop_while_id p (s : string) :
  (forall c, first_char s = Some c -> p c = false) -> Py.drop_while p s = s.
Proof. destruct s as [|a s]; [done|]. intros H. simpl. by rewrite (H a). Qed.

Lemma strip_stripped (s : string) : stripped (Py.strip s).
Proof.
  unfold Py.strip, Py.rstrip, Py.lstrip. set (t := Py.drop_while Py.isspace s).
  split; intros c Hc.
  - destruct (drop_while_split Py.isspace (String.rev t)) as (v & E & _).
    apply (f_equal String.rev) in E. rewrite rev_involutive, rev_append in E.
    destruct (String.rev (Py.drop_while Py.isspace (String.rev t)))
      as [|a u] eqn:Hu; [done|].
    apply (first_char_drop_while Py.isspace s). fold t.
    rewrite E. rewrite first_char_append by done. exact Hc.
  - rewrite last_char_rev in Hc. by apply first_char_drop_while in Hc.
Qed.

Lemma strip_fixed (s : string) : stripped s -> Py.strip s = s.
Proof.
  intros [Hf Hl]. unfold Py.strip, Py.rstrip, Py.lstrip.
  rewrite (drop_while_id _ s Hf).
  rewrite drop_while_id; [apply rev_involutive|].
  intros c. rewrite first_char_rev. apply Hl.
Qed.

(** Characters are only removed: a character absent from a string is
    absent from what [strip] leaves. *)
Lemma contains_append sep (s t : string) :
  Py.contains sep (s +:+ t) = Py.contains sep s || Py.contains sep t.
Proof.
  induction s as [|a s IH]; [done|]. rewrite append_cons. simpl.
  by destruct (Ascii.eqb a sep).
Qed.

Lemma contains_rev sep (s : string) :
  Py.contains sep (String.rev s) = Py.contains sep s.
Proof.
  induction s as [|a s IH]; [done|]. rewrite rev_cons, contains_append, IH.
  simpl. destruct (Ascii.eqb a sep); [apply orb_true_r | apply orb_false_r].
Qed.

Lemma contains_drop_while sep p (s : string) :
  Py.contains sep s = false -> Py.contains sep (Py.drop_while p s) = false.
Proof.
  intros H. destruct (drop_while_split p s) as (v & E & _).
  rewrite E, contains_append in H. by apply orb_false_elim in H as [_ ?].
Qed.

Lemma contains_strip sep (s : string) :
  Py.contains sep s = false -> Py.contains sep (Py.strip s) = false.
Proof.
  intros H. unfold Py.strip, Py.rstrip, Py.lstrip.
  rewrite contains_rev. apply contains_drop_while.
  rewrite contains_rev. by apply contains_drop_while.
Qed.

Lemma split_nonempty sep (s : string) : Py.split sep s <> [].
Proof.
  destruct s as [|a s]; [done|]. simpl.
  destruct (Ascii.eqb a sep); [done|]. by destruct (Py.split sep s).
Qed.

Lemma split_no_sep sep (s : string) :
  Py.contains sep s = false -> Py.split sep s = [s].
Proof.
  induction s as [|a s IH]; [done|]. simpl.
  destruct (Ascii.eqb a sep); [done|]. intros H. by rewrite IH.
Qed.

Lemma split_append sep (s t : string) :
  Py.split sep (s +:+ String sep t) = Py.split sep s ++ Py.split sep t.
Proof.
  induction s as [|a s IH].
  - change (EmptyString +:+ String sep t) with (String sep t).
    simpl. by rewrite Ascii.eqb_refl.
  - rewrite append_cons. simpl. destruct (Ascii.eqb a sep); rewrite IH; [done|].
    pose proof (split_nonempty sep s). by destruct (Py.split sep s).
Qed.

Lemma split_pieces sep (s : string) :
  Forall (fun piece => Py.contains sep piece = false) (Py.split sep s).
Proof.
  induction s as [|a s IH]; [by repeat constructor|]. simpl.
  destruct (Ascii.eqb a sep) eqn:Ha; [by constructor|].
  destruct (Py.split sep s) as [|q qs]; [by repeat constructor; simpl; rewrite Ha|].
  inversion IH; subst. constructor; [|done]. simpl. by rewrite Ha.
Qed.

(** Joining with a separator and splitting at it again gives the parts
    back, when no part holds the separator. *)
Lemma split_join sep (parts : list string) :
  parts <> [] ->
  Forall (fun piece => Py.contains sep piece = false) parts ->
  Py.split sep (Py.join (String sep EmptyString) parts) = parts.
Proof.
  intros Hne H. induction H as [|q parts Hq Hparts IH]; [done|].
  destruct parts as [|q' parts].
  - simpl. by apply split_no_sep.
  - change (Py.join (String sep EmptyString) (q :: q' :: parts))
      with (q +:+ String sep EmptyString
              +:+ Py.join (String sep EmptyString) (q' :: parts)).
    change (String sep EmptyString +:+ ?x) with (String sep x).
    rewrite split_append, IH by done. by rewrite split_no_sep.
Qed.

End StringFacts.

(** * Further properties of the range parser *)

Section RangeParserMore.
Variable max_str_digits : Z.

Local Abbreviation MAX := max_str_digits.

Lemma tokens_append (s t : string) :
  tokens (s +:+ "," +:+ t) = tokens s ++ tokens t.
Proof.
  unfold tokens.
  change ("," +:+ t) with (String "," t).
  by rewrite split_append, map_app, filter_app.
Qed.

Lemma tokens_spec_shape spec :
  Forall (fun tok => tok <> EmptyString /\ stripped tok
                     /\ Py.contains "," tok = false) (tokens spec).
Proof.
  unfold tokens. apply Forall_forall. intros tok Hin.
  apply list_elem_of_filter in Hin as [Hne Hin].
  apply list_elem_of_fmap in Hin as (piece & -> & Hin).
  split; [done|]. split; [apply strip_stripped|].
  apply contains_strip.
  pose proof (split_pieces "," spec) as H. rewrite Forall_forall in H. auto.
Qed.

Lemma tokens_of_tokens (toks : list string) :
  Forall (fun tok => tok <> EmptyString /\ stripped tok
                     /\ Py.contains "," tok = false) toks ->
  tokens (Py.join "," toks) = toks.
Proof.
  intros H. destruct toks as [|t toks]; [done|].
  unfold tokens. rewrite split_join; [|done|].
  2:{ apply Forall_forall. intros q Hq. rewrite Forall_forall in H.
      by destruct (H q Hq) as (_ & _ & ?). }
  induction H as [|q qs (Hne & Hs & _) _ IH]; [done|].
  rewrite map_cons, (strip_fixed q Hs), filter_cons_True by done.
  by rewrite IH.
Qed.

Lemma parse_loop_from toks total_pages acc :
  parse_loop MAX toks total_pages acc
  = (fun rs => acc ++ rs) <$> parse_loop MAX toks total_pages [].
Proof.
  revert acc. induction toks as [|tok toks IH]; intros acc; simpl.
  - by rewrite app_nil_r.
  - destruct (parse_token MAX tok total_pages) as [r| |]; simpl; try done.
    rewrite (IH (acc ++ [r])), (IH [r]).
    destruct (parse_loop MAX toks total_pages []); simpl; try done.
    by rewrite <- app_assoc.
Qed.

Lemma parse_loop_app t1 t2 total_pages :
  parse_loop MAX (t1 ++ t2) total_pages []
  = (rs ← parse_loop MAX t1 total_pages [];
     rt ← parse_loop MAX t2 total_pages [];
     Ok (rs ++ rt)).
Proof.
  assert (forall acc,
            parse_loop MAX (t1 ++ t2) total_pages acc
            = (rs ← parse_loop MAX t1 total_pages acc;
               parse_loop MAX t2 total_pages rs)) as H.
  { induction t1 as [|tok t1 IH]; intros acc; simpl; [done|].
    destruct (parse_token MAX tok total_pages); simpl; auto. }
  rewrite H. destruct (parse_loop MAX t1 total_pages []) as [rs| |]; simpl;
    try done.
  rewrite parse_loop_from. by destruct (parse_loop MAX t2 total_pages []).
Qed.

(** The check after the loop never fires: with a token to read the loop
    returns a non-empty list or fails. *)
Lemma parse_ranges_unfold spec total_pages :
  parse_ranges MAX spec total_pages
  = match tokens spec with
    | [] => Exit 2 msg_empty
    | toks => parse_loop MAX toks total_pages []
    end.
Proof.
  unfold parse_ranges. destruct (tokens spec) as [|tok toks]; [done|].
  destruct (parse_loop MAX (tok :: toks) total_pages []) as [rs| |] eqn:E;
    simpl; try done.
  apply parse_loop_ok in E as (rs' & -> & HF). inversion HF; subst. done.
Qed.

Lemma parse_token_exit tok total_pages c msg :
  parse_token MAX tok total_pages = Exit c msg ->
  c = 2 /\ exists rest, msg = String "I" rest \/ msg = String "R" rest.
Proof.
  unfold parse_token, err, msg_invalid, msg_positive, msg_inverted, msg_bounds.
  repeat case_match; intros [= <- <-]; (split; [done|]);
    eexists; ((left; reflexivity) || (right; reflexivity)).
Qed.

Lemma parse_ranges_outcome spec total_pages :
  (exists rs, parse_ranges MAX spec total_pages = Ok rs /\ rs <> []) \/
  parse_ranges MAX spec total_pages = Exit 2 msg_empty \/
  (exists rest, parse_ranges MAX spec total_pages = Exit 2 (String "I" rest)
                \/ parse_ranges MAX spec total_pages = Exit 2 (String "R" rest)).
Proof.
  rewrite parse_ranges_unfold.
  destruct (tokens spec) as [|tok toks] eqn:Htoks; [by right; left|].
  destruct (first_failure MAX (tok :: toks) total_pages)
    as [Hall|(pre & t & post & msg & E & Hpre & Ht)].
  - left. assert (exists rs, Forall2 (fun tok r => parse_token MAX tok total_pages
                                                   = Ok r) (tok :: toks) rs)
      as [rs HF].
    { clear Htoks. induction Hall as [|x xs [r Hr] _ [rs IH]]; [by exists []|].
      exists (r :: rs). by constructor. }
    exists rs. split.
    + apply parse_loop_ok. by exists rs.
    + inversion HF; subst. done.
  - right; right. rewrite E.
    rewrite (parse_loop_fails MAX pre t post total_pages [] 2 msg Hpre Ht).
    apply parse_token_exit in Ht as (_ & rest & [-> | ->]); eauto.
Qed.

(** X1.  [parse_ranges] ends in one of two ways only: it returns a list
    that is not empty, or it exits with status 2 and a message.  It never
    raises and never returns an empty list. *)
Theorem parse_ranges_returns_or_exits spec total_pages :
  (exists rs, parse_ranges MAX spec total_pages = Ok rs /\ rs <> []) \/
  (exists msg, parse_ranges MAX spec total_pages = Exit 2 msg).
Proof.
  destruct (parse_ranges_outcome spec total_pages)
    as [H|[H|[rest [H|H]]]]; eauto.
Qed.

(** X2.  The converse of the soundness of the parser: a spec with at
    least one token, none of them a bare dash, each of which converts to
    a range within the document, is accepted, and the result is the list
    of those ranges in token order. *)
Theorem parse_ranges_accepts spec total_pages :
  tokens spec <> [] ->
  Forall (fun tok =>
            tok <> "-" /\
            exists r, token_bounds MAX tok total_pages = Some r
                      /\ 1 <= r.1 /\ r.1 <= r.2 /\ r.2 <= total_pages)
    (tokens spec) ->
  exists rs,
    parse_ranges MAX spec total_pages = Ok rs /\
    Forall2 (fun tok r => token_bounds MAX tok total_pages = Some r)
      (tokens spec) rs.
Proof.
  intros Hne Hall.
  assert (exists rs,
            Forall2 (fun tok r => parse_token MAX tok total_pages = Ok r)
              (tokens spec) rs) as [rs HF].
  { clear Hne. induction Hall as [|tok toks (Hd & r & Hb & Hin) _ [rs IH]].
    - by exists [].
    - exists (r :: rs). constructor; [|done]. by apply parse_token_ok. }
  exists rs. split; [by apply parse_ranges_ok|].
  eapply Forall2_impl; [exact HF|]. intros tok r Ht.
  by apply parse_token_ok in Ht as (_ & ? & _).
Qed.

(** X3.  The second empty check of [parse_ranges], the one that quotes
    the spec in its message, is dead: no spec and no page count make the
    parser exit with that message. *)
Theorem parse_ranges_second_empty_check_dead spec total_pages c :
  parse_ranges MAX spec total_pages
  <> Exit c ("No pages matched ranges: " +:+ spec).
Proof.
  intros H.
  destruct (parse_ranges_outcome spec total_pages)
    as [(rs & E & _)|[E|[rest [E|E]]]]; rewrite E in H; try discriminate.
  injection H as _ H. change (EmptyString +:+ spec) with spec in H.
  subst spec. rewrite parse_ranges_unfold in E. vm_compute in E. discriminate.
Qed.

(** X4.  Parsing composes over the comma.  A side without tokens does
    not count; when both sides have tokens, the spec made of one side, a
    comma and the other side gives the ranges of the first followed by
    those of the second, and fails as the first side fails, or else as
    the second does. *)
Theorem parse_ranges_of_concatenation (s t : string) total_pages :
  (tokens s = [] ->
   parse_ranges MAX (s +:+ "," +:+ t) total_pages
   = parse_ranges MAX t total_pages) /\
  (tokens t = [] ->
   parse_ranges MAX (s +:+ "," +:+ t) total_pages
   = parse_ranges MAX s total_pages) /\
  (tokens s <> [] -> tokens t <> [] ->
   parse_ranges MAX (s +:+ "," +:+ t) total_pages
   = (rs ← parse_ranges MAX s total_pages;
      rt ← parse_ranges MAX t total_pages;
      Ok (rs ++ rt))).
Proof.
  rewrite !parse_ranges_unfold, tokens_append. repeat split.
  - by intros ->.
  - intros ->. by rewrite app_nil_r.
  - intros Hs Ht.
    destruct (tokens s) as [|a ts]; [done|].
    destruct (tokens t) as [|b tt]; [done|].
    by rewrite <- (parse_loop_app (a :: ts) (b :: tt)).
Qed.

(** X5.  Every token the parser works on is non-empty, holds no comma
    and has no white space at either end. *)
Theorem tokens_are_stripped_pieces spec :
  Forall (fun tok =>
            tok <> EmptyString /\ Py.contains "," tok = false /\
            (forall c, first_char tok = Some c -> Py.isspace c = false) /\
            (forall c, last_char tok = Some c -> Py.isspace c = false))
    (tokens spec).
Proof.
  eapply Forall_impl; [apply tokens_spec_shape|].
  intros tok (Hne & [Hf Hl] & Hc). auto.
Qed.

(** X6.  Only the tokens matter: two specs with the same tokens parse
    alike, whatever their blanks and stray commas, and every spec parses
    as its tokens joined by single commas do. *)
Theorem parse_ranges_layout_independent spec total_pages :
  (forall spec', tokens spec' = tokens spec ->
     parse_ranges MAX spec' total_pages = parse_ranges MAX spec total_pages) /\
  tokens (Py.join "," (tokens spec)) = tokens spec /\
  parse_ranges MAX (Py.join "," (tokens spec)) total_pages
  = parse_ranges MAX spec total_pages.
Proof.
  assert (tokens (Py.join "," (tokens spec)) = tokens spec) as Hj
    by apply tokens_of_tokens, tokens_spec_shape.
  split; [|split; [done|]].
  - intros spec' E. by rewrite !parse_ranges_unfold, E.
  - by rewrite !parse_ranges_unfold, Hj.
Qed.

End RangeParserMore.

(** * Printing and reading numbers *)

Section Numbers.
Variable max_str_digits : Z.

Local Abbreviation MAX := max_str_digits.

Lemma scan_digits_uint d acc k :
  Py.scan_digits (NilEmpty.string_of_uint d) false acc k
  = Some (uint_value d acc, k + Z.of_nat (Decimal.nb_digits d), EmptyString).
Proof.
  revert acc k. induction d; intros acc k;
    [simpl; by rewrite Z.add_0_r|..];
    cbn [NilEmpty.string_of_uint Py.scan_digits uint_value Decimal.nb_digits];
    (match goal with
     | |- context [Py.digit_value ?c] =>
         let v := eval vm_compute in (Py.digit_value c) in
         change (Py.digit_value c) with v
     end);
    (match goal with
     | |- context [Ascii.eqb ?c "_"] =>
         change (Ascii.eqb c "_") with false
     end);
    cbv iota; rewrite IHd; do 2 f_equal; f_equal; lia.
Qed.

Lemma uint_value_acc d acc :
  uint_value d (Zpos acc) = Zpos (Pos.of_uint_acc d acc).
Proof.
  revert acc. induction d; intros acc; simpl; try done; rewrite <- IHd;
    f_equal; lia.
Qed.

Lemma uint_value_of_uint d : uint_value d 0 = Z.of_N (Pos.of_uint d).
Proof.
  induction d; simpl; try done;
    change (Z.pos ?p) with (Z.pos p); apply (uint_value_acc d).
Qed.

Lemma uint_value_lower d acc :
  0 <= acc -> acc * 10 ^ Z.of_nat (Decimal.nb_digits d) <= uint_value d acc.
Proof.
  revert acc. induction d; intros acc Hacc;
    [simpl; lia|..];
    cbn [uint_value Decimal.nb_digits];
    rewrite Nat2Z.inj_succ, Z.pow_succ_r by lia;
    (etrans; [|apply IHd; lia]);
    pose proof (Z.pow_pos_nonneg 10 (Z.of_nat (Decimal.nb_digits d))
                  ltac:(lia) ltac:(lia)); nia.
Qed.

Lemma to_uint_head p d : Pos.to_uint p <> Decimal.D0 d.
Proof.
  intros E.
  pose proof (DecimalPos.Unsigned.to_of (Pos.to_uint p)) as H.
  rewrite DecimalPos.Unsigned.of_to in H. simpl in H.
  rewrite E, DecimalFacts.unorm_D0 in H. rewrite <- E in H.
  unfold Decimal.unorm in H.
  destruct (Decimal.nzhead d) eqn:Hd;
    try (rewrite E in H; by apply DecimalFacts.nzhead_nonzero in Hd
         || (rewrite <- Hd in H; symmetry in H;
             by apply DecimalFacts.nzhead_nonzero in H)).
  by apply DecimalPos.Unsigned.to_uint_nonzero in H.
Qed.

Lemma digit_char c :
  is_digit c = true ->
  Py.int_space c = false /\ Py.isspace c = false /\
  Ascii.eqb c "+" = false /\ Ascii.eqb c "-" = false /\
  Ascii.eqb c "_" = false /\ Ascii.eqb c "," = false.
Proof.
  destruct c as [[] [] [] [] [] [] [] []]; vm_compute; intros H;
    try discriminate H; repeat split.
Qed.

Lemma string_of_uint_digits d :
  Py.all_chars is_digit (NilEmpty.string_of_uint d) = true.
Proof. induction d; simpl; try done; by rewrite IHd. Qed.

Lemma string_of_uint_empty d :
  NilEmpty.string_of_uint d = EmptyString -> d = Decimal.Nil.
Proof. by destruct d. Qed.

(** [int] on a text that starts with a digit: no white space to skip and
    no sign, the digit loop decides. *)
Lemma int_unsigned c (r : string) :
  is_digit c = true ->
  Py.int MAX (String c r)
  = match Py.scan_digits (String c r) false 0 0 with
    | None => None
    | Some (value, digits, rest) =>
        if digits =? 0 then None
        else if (640 <? digits) && (0 <? MAX) && (MAX <? digits) then None
        else if Py.all_chars Py.int_space rest then Some value else None
    end.
Proof.
  intros Hc. destruct (digit_char c Hc) as (Hs & _ & Hp & Hm & Hu & _).
  unfold Py.int. cbn [Py.drop_while]. rewrite Hs, Hp, Hm.
  cbn [Py.startswith]. rewrite Hu.
  destruct (Py.scan_digits (String c r) false 0 0) as [[[v d] rest]|]; [|done].
  by repeat case_match.
Qed.

(** A minus sign before a text that starts with a digit negates. *)
Lemma int_minus c (r : string) :
  is_digit c = true ->
  Py.int MAX (String "-" (String c r)) = Z.opp <$> Py.int MAX (String c r).
Proof.
  intros Hc. rewrite (int_unsigned c r Hc).
  destruct (digit_char c Hc) as (_ & _ & _ & _ & Hu & _).
  unfold Py.int. cbn [Py.drop_while].
  change (Py.int_space "-") with false. cbv iota.
  change (Ascii.eqb "-" "+") with false. change (Ascii.eqb "-" "-") with true.
  cbv iota. cbn [Py.startswith]. rewrite Hu.
  destruct (Py.scan_digits (String c r) false 0 0) as [[[v d] rest]|]; [|done].
  by repeat case_match.
Qed.

Lemma int_string_of_uint d :
  d <> Decimal.Nil ->
  Z.of_nat (Decimal.nb_digits d) <= 640 \/ MAX <= 0 ->
  Py.int MAX (NilEmpty.string_of_uint d) = Some (uint_value d 0).
Proof.
  intros Hd Hlim.
  pose proof (string_of_uint_digits d) as Hall.
  destruct (NilEmpty.string_of_uint d) as [|c r] eqn:E.
  { by apply string_of_uint_empty in E. }
  simpl in Hall. apply andb_prop in Hall as [Hc _].
  rewrite (int_unsigned c r Hc), <- E, scan_digits_uint.
  assert (0 < Z.of_nat (Decimal.nb_digits d))
    by (clear -Hd; destruct d; simpl; try done; lia).
  destruct (Z.eqb_spec (0 + Z.of_nat (Decimal.nb_digits d)) 0); [lia|].
  assert ((640 <? 0 + Z.of_nat (Decimal.nb_digits d)) && (0 <? MAX)
          && (MAX <? 0 + Z.of_nat (Decimal.nb_digits d)) = false) as ->; [|done].
  destruct Hlim.
  - destruct (Z.ltb_spec 640 (0 + Z.of_nat (Decimal.nb_digits d))); [lia|done].
  - destruct (Z.ltb_spec 0 MAX); [lia|]. by rewrite andb_false_r.
Qed.

Lemma to_uint_value p : uint_value (Pos.to_uint p) 0 = Zpos p.
Proof.
  by rewrite uint_value_of_uint, DecimalPos.Unsigned.of_to.
Qed.

Lemma to_uint_digits p :
  Zpos p < 10 ^ 640 -> Z.of_nat (Decimal.nb_digits (Pos.to_uint p)) <= 640.
Proof.
  intros Hp. pose proof (to_uint_value p) as Hv.
  pose proof (to_uint_head p) as Hh.
  destruct (Pos.to_uint p) as [|d|d|d|d|d|d|d|d|d|d] eqn:E;
    [simpl; lia | by destruct (Hh d) |..];
    cbn [uint_value Decimal.nb_digits] in *;
    (match type of Hv with
     | uint_value _ ?a = _ =>
         pose proof (uint_value_lower d a ltac:(lia)) as Hl
     end);
    destruct (Z.le_gt_cases 640 (Z.of_nat (Decimal.nb_digits d))) as [Hge|];
    try lia;
    pose proof (Z.pow_le_mono_r 10 640 (Z.of_nat (Decimal.nb_digits d))
                  ltac:(lia) Hge);
    pose proof (Z.pow_pos_nonneg 10 640 ltac:(lia) ltac:(lia)); nia.
Qed.

Lemma str_pos p : Py.str (Zpos p) = NilEmpty.string_of_uint (Pos.to_uint p).
Proof.
  unfold Py.str. simpl. unfold NilZero.string_of_uint.
  pose proof (DecimalPos.Unsigned.to_uint_nonnil p).
  by destruct (Pos.to_uint p).
Qed.

Lemma str_neg p : Py.str (Zneg p) = String "-" (Py.str (Zpos p)).
Proof. reflexivity. Qed.

(** The text of a non-negative number is made of digits and is not
    empty. *)
Lemma str_digits n :
  0 <= n -> Py.str n <> EmptyString /\ Py.all_chars is_digit (Py.str n) = true.
Proof.
  intros Hn. destruct n as [|p|p]; [done| |lia].
  rewrite str_pos. split; [|apply string_of_uint_digits].
  intros E. apply string_of_uint_empty in E.
  by apply DecimalPos.Unsigned.to_uint_nonnil in E.
Qed.

Lemma int_str_pos p :
  Zpos p < 10 ^ 640 \/ MAX <= 0 ->
  Py.int MAX (Py.str (Zpos p)) = Some (Zpos p).
Proof.
  intros H. rewrite str_pos, int_string_of_uint.
  - by rewrite to_uint_value.
  - apply DecimalPos.Unsigned.to_uint_nonnil.
  - destruct H; [left; by apply to_uint_digits | by right].
Qed.

Lemma int_str n :
  Z.abs n < 10 ^ 640 \/ MAX <= 0 -> Py.int MAX (Py.str n) = Some n.
Proof.
  intros H. destruct n as [|p|p].
  - vm_compute. reflexivity.
  - apply int_str_pos. destruct H; [left; lia | by right].
  - rewrite str_neg.
    destruct (str_digits (Zpos p) ltac:(lia)) as [Hne Hall].
    destruct (Py.str (Zpos p)) as [|c r] eqn:E; [done|].
    simpl in Hall. apply andb_prop in Hall as [Hc _].
    rewrite (int_minus c r Hc), <- E, int_str_pos; [done|].
    destruct H; [left; lia | by right].
Qed.

End Numbers.

(** * Ranges written out and read back *)

Section PrintedRanges.
Variable max_str_digits : Z.

Local Abbreviation MAX := max_str_digits.

Lemma all_chars_first p (s : string) c :
  Py.all_chars p s = true -> first_char s = Some c -> p c = true.
Proof.
  destruct s as [|a s]; [done|]. simpl. intros H [= <-].
  by apply andb_prop in H as [? _].
Qed.

Lemma all_chars_last p (s : string) c :
  Py.all_chars p s = true -> last_char s = Some c -> p c = true.
Proof.
  induction s as [|a s IH]; [done|]. simpl. intros H.
  apply andb_prop in H as [Ha Hs].
  destruct s as [|b s]; [by intros [= <-]|]. by apply IH.
Qed.

Lemma digits_no_sep sep (s : string) :
  is_digit sep = false -> Py.all_chars is_digit s = true ->
  Py.contains sep s = false.
Proof.
  intros Hsep. induction s as [|a s IH]; [done|]. simpl. intros H.
  apply andb_prop in H as [Ha Hs].
  destruct (Ascii.eqb_spec a sep) as [->|]; [congruence | auto].
Qed.

Lemma last_char_append (s t : string) :
  t <> EmptyString -> last_char (s +:+ t) = last_char t.
Proof.
  intros Ht. induction s as [|a s IH]; [done|].
  rewrite append_cons. simpl. rewrite IH.
  destruct (s +:+ t) eqn:E; [|done]. by destruct s, t.
Qed.

Lemma endswith_last sep (s : string) :
  Py.endswith sep s = true <-> last_char s = Some sep.
Proof.
  induction s as [|a s IH]; [done|]. simpl. destruct s as [|b s].
  - destruct (Ascii.eqb_spec a sep); split; congruence.
  - apply IH.
Qed.

Lemma split_once_first sep (a b : string) :
  Py.contains sep a = false ->
  Py.split_once sep (a +:+ String sep b) = (a, Some b).
Proof.
  induction a as [|c a IH]; intros H.
  - change (EmptyString +:+ String sep b) with (String sep b).
    simpl. by rewrite Ascii.eqb_refl.
  - rewrite append_cons. simpl in *. destruct (Ascii.eqb c sep); [done|].
    by rewrite IH.
Qed.

(** A text made of digits is a token as it stands. *)
Lemma digits_stripped (s : string) :
  Py.all_chars is_digit s = true -> stripped s.
Proof.
  intros H. split; intros c Hc.
  - by apply (all_chars_first _ _ _ H), digit_char in Hc as (_ & ? & _).
  - by apply (all_chars_last _ _ _ H), digit_char in Hc as (_ & ? & _).
Qed.

Lemma tokens_single (tok : string) :
  tok <> EmptyString -> stripped tok -> Py.contains "," tok = false ->
  tokens tok = [tok].
Proof.
  intros. apply (tokens_of_tokens [tok]). constructor; [done | constructor].
Qed.

Lemma str_token n : 0 <= n -> tokens (Py.str n) = [Py.str n].
Proof.
  intros Hn. destruct (str_digits n Hn) as [Hne Hall].
  apply tokens_single; [done | by apply digits_stripped |].
  by apply (digits_no_sep "," _ eq_refl).
Qed.

Lemma range_text_token r :
  0 <= r.1 -> 0 <= r.2 -> tokens (range_text r) = [range_text r].
Proof.
  intros H1 H2. unfold range_text.
  destruct (str_digits _ H1) as [Hne1 Hall1].
  destruct (str_digits _ H2) as [Hne2 Hall2].
  apply tokens_single.
  - by destruct (Py.str r.1).
  - split; intros c.
    + rewrite first_char_append by done. apply digits_stripped, Hall1.
    + rewrite last_char_append by done.
      rewrite last_char_append by done. apply digits_stripped, Hall2.
  - rewrite !contains_append.
    by rewrite (digits_no_sep "," _ eq_refl Hall1),
      (digits_no_sep "," _ eq_refl Hall2).
Qed.

Lemma token_bounds_range_text r total_pages :
  0 <= r.1 -> 0 <= r.2 ->
  token_bounds MAX (range_text r) total_pages
  = match Py.int MAX (Py.str r.1), Py.int MAX (Py.str r.2) with
    | Some a, Some b => Some (a, b)
    | _, _ => None
    end.
Proof.
  intros H1 H2. unfold range_text, token_bounds.
  destruct (str_digits _ H1) as [Hne1 Hall1].
  destruct (str_digits _ H2) as [Hne2 Hall2].
  rewrite !contains_append. change (Py.contains "-" "-") with true.
  rewrite orb_true_l, orb_true_r.
  assert (Py.startswith "-" (Py.str r.1 +:+ "-" +:+ Py.str r.2) = false) as ->.
  { destruct (Py.str r.1) as [|c s]; [done|]. rewrite append_cons. simpl.
    simpl in Hall1. apply andb_prop in Hall1 as [Hc _].
    by apply digit_char in Hc as (_ & _ & _ & ? & _). }
  assert (Py.endswith "-" (Py.str r.1 +:+ "-" +:+ Py.str r.2) = false) as ->.
  { destruct (Py.endswith "-" _) eqn:E; [|done]. apply endswith_last in E.
    rewrite !last_char_append in E by done.
    apply (all_chars_last _ _ _ Hall2) in E. done. }
  change ("-" +:+ Py.str r.2) with (String "-" (Py.str r.2)).
  by rewrite (split_once_first "-" _ _ (digits_no_sep "-" _ eq_refl Hall1)).
Qed.

Lemma token_bounds_str n total_pages :
  0 <= n ->
  token_bounds MAX (Py.str n) total_pages
  = match Py.int MAX (Py.str n) with Some a => Some (a, a) | None => None end.
Proof.
  intros Hn. unfold token_bounds. destruct (str_digits _ Hn) as [_ Hall].
  by rewrite (digits_no_sep "-" _ eq_refl Hall).
Qed.


Lemma range_text_shape r :
  0 <= r.1 -> 0 <= r.2 ->
  range_text r <> EmptyString /\ stripped (range_text r)
  /\ Py.contains "," (range_text r) = false.
Proof.
  intros H1 H2. unfold range_text.
  destruct (str_digits _ H1) as [Hne1 Hall1].
  destruct (str_digits _ H2) as [Hne2 Hall2].
  split; [by destruct (Py.str r.1)|]. split.
  - split; intros c.
    + rewrite first_char_append by done. apply digits_stripped, Hall1.
    + rewrite last_char_append by done.
      rewrite last_char_append by done. apply digits_stripped, Hall2.
  - rewrite !contains_append.
    by rewrite (digits_no_sep "," _ eq_refl Hall1),
      (digits_no_sep "," _ eq_refl Hall2).
Qed.

Lemma parse_token_range_text r total_pages :
  in_bounds total_pages r -> total_pages < 10 ^ 640 \/ MAX <= 0 ->
  parse_token MAX (range_text r) total_pages = Ok r.
Proof.
  intros (H1 & H12 & H2) Hlim. apply parse_token_ok.
  destruct (range_text_shape r) as (Hne & _ & _); [lia..|].
  split.
  { intros E. unfold range_text in E.
    destruct (str_digits r.1 ltac:(lia)) as [Hd _].
    destruct (Py.str r.1) as [|c s]; [done|].
    rewrite append_cons in E. injection E as _ E. by destruct s. }
  split; [|done].
  rewrite token_bounds_range_text by lia.
  rewrite !int_str by (destruct Hlim; [left; lia | by right]).
  by destruct r.
Qed.

(** X7.  Every range of the document can be asked for: for pages
    [1 <= a <= b <= total_pages] (the page count having at most 640
    digits, or the interpreter's digit limit being off), the spec made
    of the decimal text of [a], a dash and the decimal text of [b]
    parses to exactly [(a, b)], and the decimal text of [a] alone parses
    to [(a, a)]. *)
Theorem parse_ranges_reads_written_range a b total_pages :
  1 <= a -> a <= b -> b <= total_pages ->
  total_pages < 10 ^ 640 \/ MAX <= 0 ->
  parse_ranges MAX (Py.str a +:+ "-" +:+ Py.str b) total_pages = Ok [(a, b)] /\
  parse_ranges MAX (Py.str a) total_pages = Ok [(a, a)].
Proof.
  intros Ha Hab Hb Hlim. split.
  - change (Py.str a +:+ "-" +:+ Py.str b) with (range_text (a, b)).
    apply parse_ranges_ok.
    rewrite (range_text_token (a, b)) by (simpl; lia).
    split; [done|]. repeat constructor.
    by apply (parse_token_range_text (a, b)).
  - apply (parse_ranges_single MAX _ (Py.str a)).
    + apply str_token. lia.
    + intros E. destruct (str_digits a ltac:(lia)) as [_ Hall].
      rewrite E in Hall. done.
    + rewrite token_bounds_str by lia.
      by rewrite int_str by (destruct Hlim; [left; lia | by right]).
    + unfold in_bounds. simpl. lia.
Qed.

(** X8.  The parser reaches every valid result: a non-empty list of
    ranges within the document is what [parse_ranges] returns on the
    spec that writes each range as start, dash, end and joins them with
    commas.  Repeated and overlapping ranges come back as given. *)
Theorem parse_ranges_reads_written_list (rs : list (Z * Z)) total_pages :
  rs <> [] ->
  Forall (fun r => 1 <= r.1 /\ r.1 <= r.2 /\ r.2 <= total_pages) rs ->
  total_pages < 10 ^ 640 \/ MAX <= 0 ->
  parse_ranges MAX (Py.join "," (range_text <$> rs)) total_pages = Ok rs.
Proof.
  intros Hne Hall Hlim. apply parse_ranges_ok.
  rewrite tokens_of_tokens.
  2:{ apply Forall_fmap. eapply Forall_impl; [exact Hall|].
      intros r (H1 & H12 & H2). simpl. apply range_text_shape; lia. }
  split; [by destruct rs|].
  clear Hne. induction Hall as [|r rs Hr _ IH]; [constructor|].
  rewrite fmap_cons. constructor; [|done].
  by apply parse_token_range_text.
Qed.

End PrintedRanges.


(** * Further properties of split and merge *)

Section SplitMore.
Variable max_str_digits : Z.
Variable Path : string -> string.
Variable joinpath : string -> string -> string.
Variable stem : string -> string.





Ltac split_steps :=
  unfold split_cmd, require_exists, mbind, M_bind, exists_, read_pdf, lift,
    existing, mret, M_ret.

(** The steps of split before the plan is made, one failure at a time. *)
Lemma split_cmd_missing input spec outdir password pattern overwrite w :
  files w !! Path input = None ->
  split_cmd max_str_digits Path joinpath stem
    input spec outdir password pattern overwrite w
  = (Exit 2 ("Input not found: " +:+ Path input), w).
Proof.
  intros Hf. split_steps. rewrite Hf.
  rewrite bool_decide_false; [done|]. by intros [? ?].
Qed.

Lemma split_cmd_not_pdf input spec outdir password pattern overwrite w content :
  files w !! Path input = Some (OtherFile content) ->
  split_cmd max_str_digits Path joinpath stem
    input spec outdir password pattern overwrite w
  = (Raise (PdfReadError (Path input)), w).
Proof.
  intros Hf. split_steps. rewrite Hf.
  rewrite bool_decide_true by eauto. by rewrite Hf.
Qed.

Lemma split_cmd_opened input spec outdir password pattern overwrite w reader :
  files w !! Path input = Some (PdfFile reader) ->
  split_cmd max_str_digits Path joinpath stem
    input spec outdir password pattern overwrite w
  = match unlock (Path input) reader password with
    | Ok _ =>
        match parse_ranges max_str_digits spec
                (Z.of_nat (length (pages reader))) with
        | Ok ranges =>
            match plan joinpath (stem (Path input))
                    (if decide (outdir ≠ EmptyString) then Path outdir
                     else Path ".") pattern ranges with
            | Ok planned =>
                let clashes :=
                  filter (fun p => is_Some (files w !! p)) planned in
                if bool_decide (clashes ≠ []) && negb overwrite
                then (Exit 2 (msg_clashes clashes), w)
                else (Ok (),
                      World (after_writes reader (files w)
                               (zip ranges planned))
                            (written w ++ planned))
            | Exit c msg => (Exit c msg, w)
            | Raise e => (Raise e, w)
            end
        | Exit c msg => (Exit c msg, w)
        | Raise e => (Raise e, w)
        end
    | Exit c msg => (Exit c msg, w)
    | Raise e => (Raise e, w)
    end.
Proof.
  intros Hf.
  destruct (unlock (Path input) reader password) as [[]| |] eqn:Hu.
  2,3: split_steps; rewrite Hf; rewrite bool_decide_true by eauto;
       rewrite Hf; cbn beta iota; by rewrite Hu.
  destruct (parse_ranges max_str_digits spec _) as [ranges| |] eqn:Hp.
  2,3: split_steps; rewrite Hf; rewrite bool_decide_true by eauto;
       rewrite Hf; cbn beta iota; rewrite Hu, Hp; done.
  destruct (plan joinpath _ _ pattern ranges) as [planned| |] eqn:Hplan.
  - by apply split_cmd_planned.
  - split_steps; rewrite Hf; rewrite bool_decide_true by eauto;
      rewrite Hf; cbn beta iota; rewrite Hu, Hp; cbn beta iota;
      by rewrite Hplan.
  - split_steps; rewrite Hf; rewrite bool_decide_true by eauto;
      rewrite Hf; cbn beta iota; rewrite Hu, Hp; cbn beta iota;
      by rewrite Hplan.
Qed.


End SplitMore.

Section MergeMore.
Variable Path : string -> string.

Ltac merge_steps :=
  unfold merge_cmd, mbind, M_bind, exists_, lift, write_pdf.

Lemma merge_cmd_refuses inputs output password w f :
  files w !! Path output = Some f ->
  merge_cmd Path inputs output password false w
  = (Exit 2 ("Refusing to overwrite existing file: " +:+ Path output
             +:+ " (use --overwrite)"), w).
Proof. intros Hf. merge_steps. rewrite Hf. by rewrite bool_decide_true by eauto. Qed.

Lemma merge_cmd_goes inputs output password overwrite w :
  files w !! Path output = None \/ overwrite = true ->
  merge_cmd Path inputs output password overwrite w
  = match open_inputs inputs password w with
    | (Ok readers, _) =>
        (Ok (),
         World (<[Path output :=
                    PdfFile (written_document
                               (add_all_pages readers
                                  (with_first_metadata readers PdfWriter)))]>
                  (files w))
               (written w ++ [Path output]))
    | (Exit c msg, _) => (Exit c msg, w)
    | (Raise e, _) => (Raise e, w)
    end.
Proof.
  intros Hout. merge_steps.
  assert (bool_decide (is_Some (files w !! Path output)) && negb overwrite
          = false) as ->.
  { destruct Hout as [-> | ->]; [|by rewrite andb_false_r].
    rewrite bool_decide_false; [done|]. by intros [? ?]. }
  pose proof (open_inputs_world inputs password w) as Hw.
  destruct (open_inputs inputs password w) as [[readers| |] w1]; simpl in Hw;
    by subst w1.
Qed.

Lemma open_inputs_stops pre path post password w :
  Forall (fun p => exists r, files w !! p = Some (PdfFile r)
                             /\ unlock p r password = Ok ()) pre ->
  open_inputs (pre ++ path :: post) password w
  = match files w !! path with
    | None => (Raise (FileNotFoundError path), w)
    | Some (OtherFile _) => (Raise (PdfReadError path), w)
    | Some (PdfFile r) =>
        match unlock path r password with
        | Ok _ => open_inputs (pre ++ path :: post) password w
        | Exit c msg => (Exit c msg, w)
        | Raise e => (Raise e, w)
        end
    end.
Proof.
  intros Hpre. induction Hpre as [|p pre (r & Hf & Hu) _ IH].
  - simpl. unfold mbind, M_bind, read_pdf, lift.
    destruct (files w !! path) as [[r|]|]; try done.
    by destruct (unlock path r password).
  - destruct (files w !! path) as [[r'|]|] eqn:Hp.
    + destruct (unlock path r' password) eqn:Hu'; [done|..];
        simpl; unfold mbind, M_bind, read_pdf, lift; rewrite Hf, Hu;
        fold (open_inputs (pre ++ path :: post) password); by rewrite IH.
    + simpl. unfold mbind, M_bind, read_pdf, lift. rewrite Hf, Hu.
      fold (open_inputs (pre ++ path :: post) password). by rewrite IH.
    + simpl. unfold mbind, M_bind, read_pdf, lift. rewrite Hf, Hu.
      fold (open_inputs (pre ++ path :: post) password). by rewrite IH.
Qed.

(** X14.  Merge reports the first thing that goes wrong.  An existing
    output without [overwrite] is refused before any input is looked at.
    Otherwise the first input that does not open decides: a missing one
    raises the exception of [open], one that is no PDF raises the
    reader's exception, an encrypted one without a password exits with
    the message that asks for one, and an encrypted one whose password
    is rejected exits with the decryption message.  Nothing is
    written. *)
Theorem merge_reports_first_failure pre path post output password
    overwrite w :
  (forall inputs f,
     files w !! Path output = Some f ->
     merge_cmd Path inputs output password false w
     = (Exit 2 ("Refusing to overwrite existing file: " +:+ Path output
                +:+ " (use --overwrite)"), w)) /\
  (files w !! Path output = None \/ overwrite = true ->
   Forall (fun p => exists r, files w !! p = Some (PdfFile r)
                              /\ unlock p r password = Ok ()) pre ->
   (files w !! path = None ->
    merge_cmd Path (pre ++ path :: post) output password overwrite w
    = (Raise (FileNotFoundError path), w)) /\
   (forall content,
      files w !! path = Some (OtherFile content) ->
      merge_cmd Path (pre ++ path :: post) output password overwrite w
      = (Raise (PdfReadError path), w)) /\
   (forall r accepted,
      files w !! path = Some (PdfFile r) -> protection r = Some accepted ->
      (password = None \/ password = Some EmptyString ->
       merge_cmd Path (pre ++ path :: post) output password overwrite w
       = (Exit 2 ("File is encrypted: " +:+ path +:+ " (pass --password)"),
          w)) /\
      (forall pw,
         password = Some pw -> pw <> EmptyString -> pw ∉ accepted ->
         merge_cmd Path (pre ++ path :: post) output password overwrite w
         = (Exit 2 ("Failed to decrypt: " +:+ path +:+ " (check --password)"),
            w)))).
Proof.
  split; [intros; by eapply merge_cmd_refuses|].
  intros Hout Hpre.
  assert (forall o,
            open_inputs (pre ++ path :: post) password w = (o, w) ->
            match o with Ok _ => False | _ => True end ->
            merge_cmd Path (pre ++ path :: post) output password overwrite w
            = (match o with
               | Ok _ => Ok ()
               | Exit c msg => Exit c msg
               | Raise e => Raise e
               end, w)) as Hstop.
  { intros o Ho Hbad. rewrite merge_cmd_goes, Ho by done. by destruct o. }
  pose proof (open_inputs_stops pre path post password w Hpre) as Hopen.
  split; [|split].
  - intros Hf. rewrite Hf in Hopen. by apply (Hstop _ Hopen).
  - intros content Hf. rewrite Hf in Hopen. by apply (Hstop _ Hopen).
  - intros r accepted Hf Hprot. rewrite Hf in Hopen. split.
    + intros Hpw.
      assert (unlock path r password
              = Exit 2 ("File is encrypted: " +:+ path
                        +:+ " (pass --password)")) as Hu.
      { unfold unlock, is_encrypted, err. rewrite Hprot.
        rewrite bool_decide_true by eauto. by destruct Hpw as [-> | ->]. }
      rewrite Hu in Hopen. by apply (Hstop _ Hopen).
    + intros pw -> Hne Hnot.
      assert (unlock path r (Some pw)
              = Exit 2 ("Failed to decrypt: " +:+ path
                        +:+ " (check --password)")) as Hu.
      { unfold unlock, is_encrypted, decrypt, truthy, err. rewrite Hprot.
        rewrite bool_decide_true by eauto. simpl.
        rewrite bool_decide_true by done. simpl.
        by rewrite bool_decide_false by done. }
      rewrite Hu in Hopen. by apply (Hstop _ Hopen).
Qed.

Lemma preserved_metadata_keys (m : gmap string (option string)) k v :
  preserved_metadata m !! k = Some v -> Py.startswith "/" k = true.
Proof.
  rewrite preserved_metadata_lookup. destruct (m !! k); [|done].
  by destruct (Py.startswith "/" k).
Qed.

Lemma preserved_metadata_written (md : gmap string string) :
  (forall k v, md !! k = Some v -> Py.startswith "/" k = true) ->
  preserved_metadata (Some <$> md) = md.
Proof.
  intros Hkeys. apply map_eq. intros k.
  rewrite preserved_metadata_lookup, lookup_fmap.
  destruct (md !! k) as [v|] eqn:E; [|done]. simpl.
  by rewrite (Hkeys k v E).
Qed.

End MergeMore.

(** * Further properties of the name pattern *)

Section PatternMore.
Variable max_str_digits : Z.
Variable Path : string -> string.
Variable joinpath : string -> string -> string.
Variable stem : string -> string.










End PatternMore.

(** * The further properties at concrete inputs *)

Lemma parse_ranges_accepts_example :
  exists rs,
    parse_ranges 4300 "1-3, 7" 10 = Ok rs /\
    Forall2 (fun tok r => token_bounds 4300 tok 10 = Some r)
      (tokens "1-3, 7") rs.
Proof.
  apply (parse_ranges_accepts 4300 "1-3, 7" 10).
  - vm_compute. discriminate.
  - assert (tokens "1-3, 7" = ["1-3"; "7"]) as -> by (vm_compute; reflexivity).
    repeat constructor; try discriminate.
    + exists (1, 3). split; [vm_compute; reflexivity | simpl; lia].
    + exists (7, 7). split; [vm_compute; reflexivity | simpl; lia].
Defined.

Lemma parse_ranges_of_concatenation_example :
  parse_ranges 4300 ("1-2" +:+ "," +:+ "5, 9-") 10
  = Ok [(1, 2); (5, 5); (9, 10)] /\
  parse_ranges 4300 (" " +:+ "," +:+ "5") 10 = Ok [(5, 5)].
Proof.
  destruct (parse_ranges_of_concatenation 4300 "1-2" "5, 9-" 10)
    as (_ & _ & H).
  destruct (parse_ranges_of_concatenation 4300 " " "5" 10) as (H' & _).
  split.
  - rewrite H; [vm_compute; reflexivity | vm_compute; discriminate..].
  - rewrite H'; vm_compute; reflexivity.
Defined.

Lemma parse_ranges_layout_independent_example :
  parse_ranges 4300 " 1 ,, 2-3 ," 10 = parse_ranges 4300 "1,2-3" 10.
Proof.
  destruct (parse_ranges_layout_independent 4300 "1,2-3" 10) as (H & _).
  apply (H " 1 ,, 2-3 ,"). vm_compute. reflexivity.
Defined.

Lemma parse_ranges_reads_written_range_example :
  parse_ranges 4300 (Py.str 2 +:+ "-" +:+ Py.str 5) 10 = Ok [(2, 5)] /\
  parse_ranges 4300 (Py.str 2) 10 = Ok [(2, 2)].
Proof.
  apply (parse_ranges_reads_written_range 4300 2 5 10);
    [lia | lia | lia | left; vm_compute; reflexivity].
Defined.

Lemma parse_ranges_reads_written_list_example :
  parse_ranges 4300 (Py.join "," (range_text <$> [(1, 3); (2, 2); (1, 3)])) 10
  = Ok [(1, 3); (2, 2); (1, 3)].
Proof.
  apply (parse_ranges_reads_written_list 4300 [(1, 3); (2, 2); (1, 3)] 10).
  - discriminate.
  - repeat constructor; simpl; lia.
  - left. vm_compute. reflexivity.
Defined.


Lemma merge_reports_first_failure_example :
  merge_cmd id ["a.pdf"; "s.pdf"; "gone.pdf"] "out.pdf" None false world_locked
  = (Exit 2 "File is encrypted: s.pdf (pass --password)", world_locked) /\
  merge_cmd id ["a.pdf"; "s.pdf"] "out.pdf" (Some "wrong") false world_locked
  = (Exit 2 "Failed to decrypt: s.pdf (check --password)", world_locked) /\
  merge_cmd id ["gone.pdf"] "a.pdf" None false world_locked
  = (Exit 2 "Refusing to overwrite existing file: a.pdf (use --overwrite)",
     world_locked).
Proof.
  split; [|split].
  - destruct (merge_reports_first_failure id ["a.pdf"] "s.pdf" ["gone.pdf"]
                "out.pdf" None false world_locked) as (_ & H).
    destruct H as (_ & _ & H).
    + left. vm_compute. reflexivity.
    + repeat constructor. exists doc_a. split; vm_compute; reflexivity.
    + destruct (H doc_locked ["pw"]) as (H1 & _);
        [vm_compute; reflexivity | reflexivity |].
      apply H1. by left.
  - destruct (merge_reports_first_failure id ["a.pdf"] "s.pdf" []
                "out.pdf" (Some "wrong") false world_locked) as (_ & H).
    destruct H as (_ & _ & H).
    + left. vm_compute. reflexivity.
    + repeat constructor. exists doc_a. split; vm_compute; reflexivity.
    + destruct (H doc_locked ["pw"]) as (_ & H2);
        [vm_compute; reflexivity | reflexivity |].
      apply (H2 "wrong"); [reflexivity | discriminate |].
      intros Hin. apply (bool_decide_pack _) in Hin. vm_compute in Hin.
      exact Hin.
  - destruct (merge_reports_first_failure id [] "gone.pdf" []
                "a.pdf" None false world_locked) as (H & _).
    apply (H ["gone.pdf"] (PdfFile doc_a)). vm_compute. reflexivity.
Defined.

(** * Opening inputs, empty documents, repeated runs *)

Section OpeningMore.
Variable max_str_digits : Z.
Variable Path : string -> string.
Variable joinpath : string -> string -> string.
Variable stem : string -> string.

(** X19.  [open_reader] and the inline opening of merge differ on a
    missing file and nowhere else: for a missing path the helper exits
    with the input-not-found message where the inline code raises the
    exception of [open]; for a path that exists both end alike, with the
    same document, the same exit or the same exception, and neither
    changes the world. *)
Theorem open_reader_differs_on_missing_only path password w :
  (files w !! path = None ->
   open_reader path password w
   = (Exit 2 ("Input not found: " +:+ path), w) /\
   open_inputs [path] password w = (Raise (FileNotFoundError path), w)) /\
  (is_Some (files w !! path) ->
   exists o,
     open_reader path password w = (o, w) /\
     open_inputs [path] password w
     = (match o with
        | Ok r => Ok [r]
        | Exit c msg => Exit c msg
        | Raise e => Raise e
        end, w)).
Proof.
  split.
  - intros Hf. split.
    + unfold open_reader, require_exists, mbind, M_bind, exists_, lift.
      rewrite Hf. rewrite bool_decide_false; [done|]. by intros [? ?].
    + apply (open_inputs_missing [] path []); [constructor | done].
  - intros [f Hf].
    unfold open_reader, require_exists, open_inputs, mbind, M_bind, exists_,
      read_pdf, lift, mret, M_ret.
    rewrite Hf. rewrite bool_decide_true by eauto. rewrite Hf.
    destruct f as [d|content]; [|by eexists].
    destruct (unlock path d password) as [[]| |]; by eexists.
Qed.

(** X20.  A document without pages cannot be split: against a page count
    of zero or less every spec fails in the parser, and split on an
    input with no pages never succeeds and writes nothing. *)
Theorem empty_document_cannot_be_split :
  (forall spec total_pages,
     total_pages <= 0 ->
     exists msg, parse_ranges max_str_digits spec total_pages = Exit 2 msg) /\
  (forall input spec outdir password pattern overwrite w reader,
     files w !! Path input = Some (PdfFile reader) ->
     pages reader = [] ->
     exists o,
       split_cmd max_str_digits Path joinpath stem
         input spec outdir password pattern overwrite w = (o, w)
       /\ o <> Ok ()).
Proof.
  assert (forall spec total_pages,
            total_pages <= 0 ->
            exists msg, parse_ranges max_str_digits spec total_pages
                        = Exit 2 msg) as Hparse.
  { intros spec total Htotal.
    destruct (parse_ranges_outcome max_str_digits spec total)
      as [(rs & E & Hne)|[E|[rest [E|E]]]]; eauto.
    apply parse_ranges_in_bounds in E. destruct rs as [|r rs]; [done|].
    inversion E as [|? ? (H1 & H12 & H2) _]; subst. lia. }
  split; [exact Hparse|].
  intros input spec outdir password pattern overwrite w reader Hf Hpages.
  rewrite (split_cmd_opened _ _ _ _ _ _ _ _ _ _ _ _ Hf).
  destruct (unlock (Path input) reader password) as [[]| |];
    [|by eexists..].
  rewrite Hpages. change (Z.of_nat (length (@nil page))) with 0.
  destruct (Hparse spec 0 ltac:(lia)) as [msg ->]. by eexists.
Qed.

Lemma after_writes_target (reader : document) (fs : gmap string file)
    (todo : list ((Z * Z) * string)) q :
  q ∈ todo.*2 ->
  exists k r, todo !! k = Some (r, q) /\
              forall k' r', (k < k')%nat -> todo !! k' <> Some (r', q).
Proof.
  induction todo as [|[r t] todo IH]; intros Hin.
  { by apply elem_of_nil in Hin. }
  destruct (decide (q ∈ todo.*2)) as [Hlater|Hnot].
  - destruct (IH Hlater) as (k & r0 & Hk & Hlast).
    exists (S k), r0. split; [done|].
    intros [|k'] r' Hlt; [lia|]. apply Hlast. lia.
  - simpl in Hin. apply elem_of_cons in Hin as [->|Hin]; [|done].
    exists 0%nat, r. split; [done|].
    intros [|k'] r' Hlt Hk'; [lia|]. simpl in Hk'.
    apply Hnot. apply list_elem_of_fmap. exists (r', t). split; [done|].
    apply list_elem_of_lookup. eauto.
Qed.

Lemma after_writes_twice reader fs todo :
  after_writes reader (after_writes reader fs todo) todo
  = after_writes reader fs todo.
Proof.
  apply map_eq. intros q. destruct (decide (q ∈ todo.*2)) as [Hin|Hnot].
  - destruct (after_writes_target reader fs todo q Hin) as (k & r & Hk & Hl).
    by rewrite !(after_writes_last reader _ todo k r q Hk Hl).
  - by rewrite !after_writes_other.
Qed.

End OpeningMore.

Lemma open_reader_differs_on_missing_only_example :
  open_reader "gone.pdf" None world_ab
    = (Exit 2 "Input not found: gone.pdf", world_ab) /\
  open_inputs ["gone.pdf"] None world_ab
    = (Raise (FileNotFoundError "gone.pdf"), world_ab) /\
  exists o,
    open_reader "s.pdf" None world_locked = (o, world_locked) /\
    o = Exit 2 "File is encrypted: s.pdf (pass --password)".
Proof.
  destruct (open_reader_differs_on_missing_only "gone.pdf" None world_ab)
    as (H & _).
  destruct (open_reader_differs_on_missing_only "s.pdf" None world_locked)
    as (_ & H').
  destruct H as [H1 H2]; [vm_compute; reflexivity|].
  split; [exact H1|]. split; [exact H2|].
  destruct H' as (o & Ho & _); [eexists; vm_compute; reflexivity|].
  exists o. split; [exact Ho|].
  assert (open_reader "s.pdf" None world_locked
          = (Exit 2 "File is encrypted: s.pdf (pass --password)",
             world_locked)) as E by (vm_compute; reflexivity).
  rewrite E in Ho. by injection Ho as <-.
Defined.

Lemma empty_document_cannot_be_split_example :
  (exists msg, parse_ranges 4300 "1-" 0 = Exit 2 msg) /\
  exists o,
    split_cmd 4300 id plain_join plain_stem "e.pdf" "1-" "out" None None true
      (World {["e.pdf" := PdfFile (Document None None [])]} [])
    = (o, World {["e.pdf" := PdfFile (Document None None [])]} [])
    /\ o <> Ok ().
Proof.
  destruct (empty_document_cannot_be_split 4300 id plain_join plain_stem)
    as (H1 & H2).
  split; [apply H1; lia|].
  apply (H2 "e.pdf" "1-" "out" None None true _ (Document None None []));
    vm_compute; reflexivity.
Defined.

Lemma tokens_are_stripped_pieces_example :
  tokens " 1 - 3 ,, 7 " = ["1 - 3"; "7"] /\
  Forall (fun tok =>
            tok <> EmptyString /\ Py.contains "," tok = false /\
            (forall c, first_char tok = Some c -> Py.isspace c = false) /\
            (forall c, last_char tok = Some c -> Py.isspace c = false))
    (tokens " 1 - 3 ,, 7 ").
Proof.
  split; [vm_compute; reflexivity|].
  apply (tokens_are_stripped_pieces " 1 - 3 ,, 7 ").
Defined.

(** * The commands where the operating system can refuse *)

Lemma world_after_nil reader w : world_after reader w [] = w.
Proof. destruct w. unfold world_after. simpl. by rewrite app_nil_r. Qed.

Lemma world_after_cons reader w rt todo :
  world_after reader w (rt :: todo)
  = world_after reader
      (World (<[rt.2 := segment_file reader rt.1]> (files w))
             (written w ++ [rt.2]))
      todo.
Proof. unfold world_after, after_writes. simpl. by rewrite <- app_assoc. Qed.

Lemma world_after_app reader w pre post :
  world_after reader w (pre ++ post)
  = world_after reader (world_after reader w pre) post.
Proof.
  unfold world_after, after_writes. simpl.
  by rewrite foldl_app, fmap_app, app_assoc.
Qed.

(** Where the operating system never refuses, the commands of [Os] are
    [merge_cmd] and [split_cmd] as first given. *)
Lemma os_merge_cmd_plain Path parent inputs output password overwrite w :
  Os.merge_cmd Path parent makes_any writes_any
    inputs output password overwrite w
  = merge_cmd Path inputs output password overwrite w.
Proof. reflexivity. Qed.

Lemma os_split_cmd_plain max_str_digits Path joinpath stem
    input spec outdir password pattern overwrite w :
  Os.split_cmd max_str_digits Path joinpath stem makes_any writes_any
    input spec outdir password pattern overwrite w
  = split_cmd max_str_digits Path joinpath stem
      input spec outdir password pattern overwrite w.
Proof. reflexivity. Qed.

Section Refusals.
Variable max_str_digits : Z.
Variable Path : string -> string.
Variable joinpath : string -> string -> string.
Variable stem : string -> string.
Variable parent : string -> string.
Variable mkdir_error : world -> string -> option exn.
Variable write_outcome : world -> string -> write_result.

Local Abbreviation os_merge :=
  (Os.merge_cmd Path parent mkdir_error write_outcome).
Local Abbreviation os_split :=
  (Os.split_cmd max_str_digits Path joinpath stem mkdir_error write_outcome).
Local Abbreviation os_write_segments := (Os.write_segments write_outcome).
Local Abbreviation total reader := (Z.of_nat (length (pages reader))).

(** ** The writing loop *)

Lemma os_write_segments_next reader r t post w :
  in_bounds (total reader) r ->
  os_write_segments reader ((r, t) :: post) w
  = match write_outcome w t with
    | Written =>
        os_write_segments reader post
          (World (<[t := segment_file reader r]> (files w)) (written w ++ [t]))
    | Refused e => (Raise e, w)
    | Broken e remains =>
        (Raise e,
         World (<[t := OtherFile remains]> (files w)) (written w ++ [t]))
    end.
Proof.
  destruct r as [a b]. intros (Ha & Hab & Hb). simpl in Ha, Hab, Hb.
  cbn [Os.write_segments]. unfold mbind, M_bind, lift, Os.write_pdf.
  rewrite (segment_ok reader a b Ha Hab Hb).
  by destruct (write_outcome w t).
Qed.

(** The writes accepted so far are on disk when the next one is tried. *)
Lemma os_write_segments_app reader pre post w :
  Forall (fun rt : (Z * Z) * string => in_bounds (total reader) rt.1) pre ->
  accepted_along write_outcome reader w pre ->
  os_write_segments reader (pre ++ post) w
  = os_write_segments reader post (world_after reader w pre).
Proof.
  intros Hb. revert w.
  induction Hb as [|[r t] pre Hr _ IH]; intros w Hacc.
  - by rewrite world_after_nil.
  - pose proof (Hacc 0%nat _ eq_refl) as H0. simpl in H0.
    rewrite world_after_nil in H0.
    change (((r, t) :: pre) ++ post) with ((r, t) :: (pre ++ post)).
    rewrite (os_write_segments_next _ _ _ _ _ Hr), H0.
    rewrite IH; [by rewrite world_after_cons|].
    intros i rt Hi. specialize (Hacc (S i) rt Hi). simpl in Hacc.
    by rewrite world_after_cons in Hacc.
Qed.

Lemma os_write_segments_ok reader todo w :
  Forall (fun rt : (Z * Z) * string => in_bounds (total reader) rt.1) todo ->
  accepted_along write_outcome reader w todo ->
  os_write_segments reader todo w = (Ok (), world_after reader w todo).
Proof.
  intros Hb Hacc. rewrite <- (app_nil_r todo) at 1.
  by rewrite os_write_segments_app.
Qed.


Lemma zip_in_bounds (ranges : list (Z * Z)) (planned : list string) n :
  Forall (in_bounds n) ranges ->
  Forall (fun rt : (Z * Z) * string => in_bounds n rt.1) (zip ranges planned).
Proof.
  intros H. revert planned. induction H as [|r ranges Hr _ IH]; intros planned.
  - constructor.
  - destruct planned as [|p planned]; [constructor|].
    simpl. constructor; [done|apply IH].
Qed.

(** ** split, step by step *)

Ltac os_split_steps :=
  unfold Os.split_cmd, require_exists, Os.mkdir, mbind, M_bind, exists_,
    read_pdf, lift, existing, mret, M_ret.

Lemma os_split_cmd_missing input spec outdir password pattern overwrite w :
  files w !! Path input = None ->
  os_split input spec outdir password pattern overwrite w
  = (Exit 2 ("Input not found: " +:+ Path input), w).
Proof.
  intros Hf. os_split_steps. rewrite Hf.
  rewrite bool_decide_false; [done|]. by intros [? ?].
Qed.

Lemma os_split_cmd_no_directory input spec outdir password pattern overwrite
    w f e :
  files w !! Path input = Some f ->
  mkdir_error w (output_directory Path outdir) = Some e ->
  os_split input spec outdir password pattern overwrite w = (Raise e, w).
Proof.
  intros Hf Hd. unfold output_directory in Hd. os_split_steps. rewrite Hf.
  rewrite bool_decide_true by eauto. by rewrite Hd.
Qed.

Lemma os_split_cmd_opened input spec outdir password pattern overwrite w f :
  files w !! Path input = Some f ->
  mkdir_error w (output_directory Path outdir) = None ->
  os_split input spec outdir password pattern overwrite w
  = match f with
    | OtherFile _ => (Raise (PdfReadError (Path input)), w)
    | PdfFile reader =>
        match unlock (Path input) reader password with
        | Ok _ =>
            match parse_ranges max_str_digits spec (total reader) with
            | Ok ranges =>
                match plan joinpath (stem (Path input))
                        (output_directory Path outdir) pattern ranges with
                | Ok planned =>
                    let clashes :=
                      filter (fun p => is_Some (files w !! p)) planned in
                    if bool_decide (clashes ≠ []) && negb overwrite
                    then (Exit 2 (msg_clashes clashes), w)
                    else os_write_segments reader (zip ranges planned) w
                | Exit c msg => (Exit c msg, w)
                | Raise e => (Raise e, w)
                end
            | Exit c msg => (Exit c msg, w)
            | Raise e => (Raise e, w)
            end
        | Exit c msg => (Exit c msg, w)
        | Raise e => (Raise e, w)
        end
    end.
Proof.
  intros Hf Hd. unfold output_directory in *. os_split_steps. rewrite Hf.
  rewrite bool_decide_true by eauto. rewrite Hd, Hf.
  destruct f as [reader|content]; [|done].
  destruct (unlock (Path input) reader password) as [[]| |]; try done.
  destruct (parse_ranges max_str_digits spec _) as [ranges| |]; try done.
  destruct (plan joinpath _ _ pattern ranges) as [planned| |]; try done.
  cbn zeta. by destruct (bool_decide _ && negb overwrite).
Qed.

(** Once the input is open and the plan made, split refuses or starts
    the writing loop. *)
Lemma os_split_cmd_planned input spec outdir password pattern overwrite
    w reader ranges planned :
  files w !! Path input = Some (PdfFile reader) ->
  mkdir_error w (output_directory Path outdir) = None ->
  unlock (Path input) reader password = Ok () ->
  parse_ranges max_str_digits spec (total reader) = Ok ranges ->
  plan joinpath (stem (Path input)) (output_directory Path outdir)
    pattern ranges = Ok planned ->
  os_split input spec outdir password pattern overwrite w
  = if bool_decide (filter (fun p => is_Some (files w !! p)) planned ≠ [])
       && negb overwrite
    then (Exit 2 (msg_clashes
                    (filter (fun p => is_Some (files w !! p)) planned)), w)
    else os_write_segments reader (zip ranges planned) w.
Proof.
  intros Hf Hd Hu Hp Hplan.
  by rewrite (os_split_cmd_opened _ _ _ _ _ _ _ _ Hf Hd), Hu, Hp, Hplan.
Qed.

Lemma may_write overwrite (fs : gmap string file) (planned : list string) :
  overwrite = true \/ Forall (fun p => fs !! p = None) planned ->
  bool_decide (filter (fun p => is_Some (fs !! p)) planned ≠ [])
  && negb overwrite = false.
Proof.
  intros [-> | Hfree]; [apply andb_false_r|].
  rewrite bool_decide_false; [done|]. intros Hne. by apply Hne, no_clashes.
Qed.

(** A split whose directory is made and whose writes are all accepted. *)
Lemma os_split_cmd_runs input spec outdir password pattern overwrite
    w reader ranges planned :
  files w !! Path input = Some (PdfFile reader) ->
  mkdir_error w (output_directory Path outdir) = None ->
  unlock (Path input) reader password = Ok () ->
  parse_ranges max_str_digits spec (total reader) = Ok ranges ->
  plan joinpath (stem (Path input)) (output_directory Path outdir)
    pattern ranges = Ok planned ->
  overwrite = true \/ Forall (fun p => files w !! p = None) planned ->
  accepted_along write_outcome reader w (zip ranges planned) ->
  os_split input spec outdir password pattern overwrite w
  = (Ok (), world_after reader w (zip ranges planned)).
Proof.
  intros Hf Hd Hu Hp Hplan Hgo Hacc.
  rewrite (os_split_cmd_planned _ _ _ _ _ _ _ _ _ _ Hf Hd Hu Hp Hplan).
  rewrite (may_write _ _ _ Hgo).
  apply os_write_segments_ok; [|done].
  apply zip_in_bounds. by eapply parse_ranges_in_bounds.
Qed.

(** ** merge, step by step *)

Ltac os_merge_steps :=
  unfold Os.merge_cmd, Os.mkdir, Os.write_pdf, mbind, M_bind, exists_, lift.

Lemma os_merge_cmd_refuses inputs output password w f :
  files w !! Path output = Some f ->
  os_merge inputs output password false w
  = (Exit 2 ("Refusing to overwrite existing file: " +:+ Path output
             +:+ " (use --overwrite)"), w).
Proof.
  intros Hf. os_merge_steps. rewrite Hf. by rewrite bool_decide_true by eauto.
Qed.

Lemma os_merge_cmd_goes inputs output password overwrite w :
  files w !! Path output = None \/ overwrite = true ->
  os_merge inputs output password overwrite w
  = match open_inputs inputs password w with
    | (Ok readers, _) =>
        match mkdir_error w (parent (Path output)) with
        | Some e => (Raise e, w)
        | None =>
            match write_outcome w (Path output) with
            | Written =>
                (Ok (),
                 World (<[Path output := PdfFile (merged_document readers)]>
                          (files w))
                       (written w ++ [Path output]))
            | Refused e => (Raise e, w)
            | Broken e remains =>
                (Raise e,
                 World (<[Path output := OtherFile remains]> (files w))
                       (written w ++ [Path output]))
            end
        end
    | (Exit c msg, _) => (Exit c msg, w)
    | (Raise e, _) => (Raise e, w)
    end.
Proof.
  intros Hout. os_merge_steps.
  assert (bool_decide (is_Some (files w !! Path output)) && negb overwrite
          = false) as ->.
  { destruct Hout as [-> | ->]; [|by rewrite andb_false_r].
    rewrite bool_decide_false; [done|]. by intros [? ?]. }
  pose proof (open_inputs_world inputs password w) as Hw.
  destruct (open_inputs inputs password w) as [[readers| |] w1]; simpl in Hw;
    subst w1; [|done..].
  destruct (mkdir_error w (parent (Path output))); [done|].
  by destruct (write_outcome w (Path output)).
Qed.

(** What a successful merge did. *)
Lemma os_merge_cmd_ok inputs output password overwrite w w' :
  os_merge inputs output password overwrite w = (Ok (), w') ->
  exists readers,
    Forall2 (fun path r => files w !! path = Some (PdfFile r)
                           /\ unlock path r password = Ok ()) inputs readers /\
    w' = World (<[Path output := PdfFile (merged_document readers)]> (files w))
               (written w ++ [Path output]).
Proof.
  intros H.
  destruct (files w !! Path output) as [f|] eqn:Hf; [destruct overwrite|].
  2:{ by rewrite (os_merge_cmd_refuses _ _ _ _ _ Hf) in H. }
  all: rewrite os_merge_cmd_goes in H by auto;
    destruct (open_inputs inputs password w) as [[readers| |] w1] eqn:Ho;
    try discriminate;
    apply open_inputs_ok in Ho as [-> HF];
    destruct (mkdir_error w (parent (Path output))); try discriminate;
    destruct (write_outcome w (Path output)); try discriminate;
    injection H as <-; by exists readers.
Qed.

Lemma os_merge_cmd_run inputs output password overwrite w readers :
  files w !! Path output = None \/ overwrite = true ->
  Forall2 (fun path r => files w !! path = Some (PdfFile r)
                         /\ unlock path r password = Ok ()) inputs readers ->
  mkdir_error w (parent (Path output)) = None ->
  write_outcome w (Path output) = Written ->
  os_merge inputs output password overwrite w
  = (Ok (),
     World (<[Path output := PdfFile (merged_document readers)]> (files w))
           (written w ++ [Path output])).
Proof.
  intros Hout HF Hd Hw. rewrite os_merge_cmd_goes by done.
  by rewrite (open_inputs_succeeds _ _ _ _ HF), Hd, Hw.
Qed.

(** ** What carries over from the plain commands

    The refusal of collisions, the failure on a missing input and the
    pages of a merge, as proved of the plain commands, hold whatever the
    operating system answers: a refused collision and a failed input
    come before the output is opened for writing, and a merge that
    succeeded was let through. *)

Lemma os_split_refuses_collisions input spec outdir password pattern
    w reader ranges planned :
  files w !! Path input = Some (PdfFile reader) ->
  unlock (Path input) reader password = Ok () ->
  parse_ranges max_str_digits spec (total reader) = Ok ranges ->
  plan joinpath (stem (Path input)) (output_directory Path outdir)
    pattern ranges = Ok planned ->
  (exists p, p ∈ planned /\ is_Some (files w !! p)) ->
  exists o,
    os_split input spec outdir password pattern false w = (o, w) /\
    o <> Ok () /\
    (mkdir_error w (output_directory Path outdir) = None ->
     o = Exit 2 (msg_clashes
                   (filter (fun p => is_Some (files w !! p)) planned))).
Proof.
  intros Hf Hu Hp Hplan (p & Hin & Hex).
  destruct (mkdir_error w (output_directory Path outdir)) as [e|] eqn:Hd.
  { rewrite (os_split_cmd_no_directory _ _ _ _ _ _ _ _ _ Hf Hd).
    by eexists. }
  rewrite (os_split_cmd_planned _ _ _ _ _ _ _ _ _ _ Hf Hd Hu Hp Hplan).
  rewrite bool_decide_true; [by eexists|].
  intros E. assert (p ∈ @nil string) as Hnil.
  { rewrite <- E. apply list_elem_of_filter. by split. }
  by apply elem_of_nil in Hnil.
Qed.

Lemma os_merge_cmd_missing_input pre path post output password overwrite w :
  files w !! Path output = None \/ overwrite = true ->
  Forall (fun p => exists r, files w !! p = Some (PdfFile r)
                             /\ unlock p r password = Ok ()) pre ->
  files w !! path = None ->
  os_merge (pre ++ path :: post) output password overwrite w
  = (Raise (FileNotFoundError path), w).
Proof.
  intros Hout Hpre Hmiss. rewrite os_merge_cmd_goes by done.
  by rewrite (open_inputs_missing _ _ _ _ _ Hpre Hmiss).
Qed.

Lemma os_merge_concatenates_pages inputs output password overwrite w w' :
  os_merge inputs output password overwrite w = (Ok (), w') ->
  exists readers out,
    Forall2 (fun path r => files w !! path = Some (PdfFile r)) inputs readers /\
    files w' !! Path output = Some (PdfFile out) /\
    pages out = concat (pages <$> readers) /\
    written w' = written w ++ [Path output].
Proof.
  intros H. apply os_merge_cmd_ok in H as (readers & HF & ->).
  exists readers. eexists. split; [|split; [|split]].
  - eapply Forall2_impl; [exact HF|]. by intros ?? [? _].
  - cbn [files]. apply lookup_insert_eq.
  - unfold merged_document, written_document. cbn [pages].
    by rewrite add_all_pages_pages, with_first_metadata_pages.
  - done.
Qed.

(** ** The metadata of a merged document *)

Lemma preserved_metadata_empty : preserved_metadata ∅ = ∅.
Proof. unfold preserved_metadata. by rewrite map_filter_empty, fmap_empty. Qed.

(** The writer's information dictionary once the first input has been
    looked at: the entries kept from it, over the producer entry. *)
Lemma first_metadata readers :
  w_metadata (with_first_metadata readers PdfWriter)
  = Some (preserved_metadata (default ∅ (head readers ≫= metadata))
          ∪ {["/Producer" := "pypdf"]}).
Proof.
  unfold with_first_metadata. destruct readers as [|r readers]; simpl.
  { by rewrite preserved_metadata_empty, (left_id_L ∅ (∪)). }
  destruct (metadata r) as [m|]; simpl.
  2:{ by rewrite preserved_metadata_empty, (left_id_L ∅ (∪)). }
  destruct (decide (m ≠ ∅)) as [Hne|He].
  2:{ apply dec_stable in He. subst m.
      by rewrite preserved_metadata_empty, (left_id_L ∅ (∪)). }
  destruct (decide (preserved_metadata m ≠ ∅)) as [Hp|Hp]; [done|].
  apply dec_stable in Hp. by rewrite Hp, (left_id_L ∅ (∪)).
Qed.

Lemma merged_document_pages readers :
  pages (merged_document readers) = concat (pages <$> readers).
Proof.
  unfold merged_document, written_document. cbn [pages].
  by rewrite add_all_pages_pages, with_first_metadata_pages.
Qed.

Lemma merged_document_metadata readers :
  metadata (merged_document readers)
  = Some (Some <$> (preserved_metadata (default ∅ (head readers ≫= metadata))
                    ∪ {["/Producer" := "pypdf"]})).
Proof.
  unfold merged_document, written_document. cbn [metadata].
  by rewrite add_all_pages_metadata, first_metadata.
Qed.

(** Merging a merged document alone gives the same document. *)
Lemma remerge_document readers :
  merged_document [merged_document readers] = merged_document readers.
Proof.
  set (d := merged_document readers).
  assert (protection d = None) as Hprot by done.
  pose proof (merged_document_pages [d]) as Hpages.
  pose proof (merged_document_metadata [d]) as Hmeta.
  cbn [head mbind option_bind fmap list_fmap concat] in Hpages, Hmeta.
  rewrite app_nil_r in Hpages.
  assert (protection (merged_document [d]) = None) as Hprot' by done.
  destruct (merged_document [d]) as [prot' meta' ps'].
  destruct d as [prot meta ps] eqn:Ed. simpl in *. subst prot prot' ps'.
  f_equal. subst meta'.
  pose proof (merged_document_metadata readers) as Hm.
  fold d in Hm. rewrite Ed in Hm. simpl in Hm. subst meta. simpl.
  rewrite preserved_metadata_written.
  - by rewrite <- (assoc_L (∪)), (idemp_L (∪)).
  - intros k v Hk. apply lookup_union_Some_raw in Hk as [Hk|[_ Hk]].
    + by eapply preserved_metadata_keys.
    + apply lookup_singleton_Some in Hk as [<- _]. reflexivity.
Qed.

(** * The claims where the operating system can refuse *)

(** C5, as the code has it.  The metadata of the output depends on the
    first input and on the producer entry the writer starts with, and on
    nothing else.  Each key of the first input's metadata that starts
    with a slash is written with the text of its value: a null stored in
    the PDF, which arrives as the object [NullObject], with the text
    [NullObject], and Python's [None], which pypdf does not hand over,
    with the empty text; no such key is skipped.  No other key of the
    first input is written.  The key [/Producer] is written with [pypdf]
    when the first input does not give it.  When the first input has no
    metadata the output's metadata is the producer entry alone. *)
Theorem merge_metadata_from_first first rest output password overwrite w w' :
  Os.merge_cmd Path parent mkdir_error write_outcome
    (first :: rest) output password overwrite w = (Ok (), w') ->
  exists r out md,
    files w !! first = Some (PdfFile r) /\
    files w' !! Path output = Some (PdfFile out) /\
    metadata out = Some md /\
    (forall k,
       md !! k
       = match default ∅ (metadata r) !! k with
         | Some v =>
             if Py.startswith "/" k then Some (Some (default EmptyString v))
             else None
         | None =>
             if decide (k = "/Producer") then Some (Some "pypdf") else None
         end) /\
    (metadata r = None -> md = {["/Producer" := Some "pypdf"]}).
Proof.
  intros H. apply os_merge_cmd_ok in H as (readers & HF & ->).
  inversion HF as [|? r ? readers' [Hr _] _]; subst.
  exists r. eexists. eexists. split; [done|].
  split; [apply lookup_insert_eq|].
  split; [apply merged_document_metadata|].
  cbn [head mbind option_bind]. split.
  - intros k. rewrite lookup_fmap, lookup_union, preserved_metadata_lookup.
    destruct (default ∅ (metadata r) !! k) as [v|] eqn:Hk.
    + destruct (Py.startswith "/" k) eqn:Hs.
      * by destruct (({["/Producer" := "pypdf"]} : gmap string string) !! k).
      * rewrite lookup_singleton_ne; [done|]. by intros <-.
    + destruct (decide (k = "/Producer")) as [->|Hne].
      * by rewrite lookup_singleton_eq.
      * by rewrite lookup_singleton_ne.
  - intros ->. simpl.
    by rewrite preserved_metadata_empty, (left_id_L ∅ (∪)), map_fmap_singleton.
Qed.


End Refusals.

(** * Further properties where the operating system can refuse *)

Section RefusalsMore.
Variable max_str_digits : Z.
Variable Path : string -> string.
Variable joinpath : string -> string -> string.
Variable stem : string -> string.
Variable parent : string -> string.
Variable mkdir_error : world -> string -> option exn.
Variable write_outcome : world -> string -> write_result.

Local Abbreviation os_merge :=
  (Os.merge_cmd Path parent mkdir_error write_outcome).
Local Abbreviation os_split :=
  (Os.split_cmd max_str_digits Path joinpath stem mkdir_error write_outcome).
Local Abbreviation total reader := (Z.of_nat (length (pages reader))).


(** X11.  Split reports the first step that fails, in the order: the
    input is missing (exit with the input-not-found message); the output
    directory cannot be made (the exception of [mkdir], also when the
    input is no PDF, as it has not been opened yet); the input is no PDF
    (the reader's exception); the input cannot be unlocked (the exit of
    the decryption step); the ranges do not parse (the parser's exit,
    unchanged); a file name cannot be made (the exception of
    [str.format]).  In each case no file is written. *)
Theorem split_reports_first_failure input spec outdir password pattern
    overwrite w :
  (files w !! Path input = None ->
   Os.split_cmd max_str_digits Path joinpath stem mkdir_error
     write_outcome input spec outdir password pattern overwrite w
   = (Exit 2 ("Input not found: " +:+ Path input), w)) /\
  (forall f e,
     files w !! Path input = Some f ->
     mkdir_error w (output_directory Path outdir) = Some e ->
     Os.split_cmd max_str_digits Path joinpath stem mkdir_error
       write_outcome input spec outdir password pattern overwrite w = (Raise e, w)) /\
  (mkdir_error w (output_directory Path outdir) = None ->
   (forall content,
      files w !! Path input = Some (OtherFile content) ->
      Os.split_cmd max_str_digits Path joinpath stem mkdir_error
        write_outcome input spec outdir password pattern overwrite w
      = (Raise (PdfReadError (Path input)), w)) /\
   (forall reader,
      files w !! Path input = Some (PdfFile reader) ->
      (forall c msg,
         unlock (Path input) reader password = Exit c msg ->
         Os.split_cmd max_str_digits Path joinpath stem mkdir_error
           write_outcome input spec outdir password pattern overwrite w
         = (Exit c msg, w)) /\
      (unlock (Path input) reader password = Ok () ->
       (forall c msg,
          parse_ranges max_str_digits spec (total reader) = Exit c msg ->
          Os.split_cmd max_str_digits Path joinpath stem mkdir_error
            write_outcome input spec outdir password pattern overwrite w
          = (Exit c msg, w)) /\
       (forall ranges e,
          parse_ranges max_str_digits spec (total reader) = Ok ranges ->
          plan joinpath (stem (Path input)) (output_directory Path outdir)
            pattern ranges = Raise e ->
          (forall what, e <> OutsideFragment what) ->
          Os.split_cmd max_str_digits Path joinpath stem mkdir_error
            write_outcome input spec outdir password pattern overwrite w
          = (Raise e, w))))).
Proof.
  split; [apply os_split_cmd_missing|].
  split; [intros f e; apply os_split_cmd_no_directory|].
  intros Hd. split.
  - intros content Hf.
    by rewrite (os_split_cmd_opened max_str_digits Path joinpath stem
                  mkdir_error write_outcome _ _ _ _ _ _ _ _ Hf Hd).
  - intros reader Hf.
    pose proof (os_split_cmd_opened max_str_digits Path joinpath stem
                  mkdir_error write_outcome input spec outdir password
                  pattern overwrite w _ Hf Hd) as E.
    split.
    + intros c msg Hu. by rewrite E, Hu.
    + intros Hu. split.
      * intros c msg Hp. by rewrite E, Hu, Hp.
      * intros ranges e Hp Hplan _. by rewrite E, Hu, Hp, Hplan.
Qed.



(** X15.  Merge is idempotent on what it produces: after a successful
    merge, merging the output alone into a path that may be written, in
    a directory that is made, with the write accepted, succeeds and
    writes the very same document, pages and metadata. *)
Theorem merge_of_merged_is_identity inputs output password overwrite w w'
    output2 password2 overwrite2 :
  Os.merge_cmd Path parent mkdir_error write_outcome
    inputs output password overwrite w = (Ok (), w') ->
  files w' !! Path output2 = None \/ overwrite2 = true ->
  mkdir_error w' (parent (Path output2)) = None ->
  write_outcome w' (Path output2) = Written ->
  exists d w'',
    files w' !! Path output = Some (PdfFile d) /\
    Os.merge_cmd Path parent mkdir_error write_outcome
      [Path output] output2 password2 overwrite2 w' = (Ok (), w'') /\
    files w'' !! Path output2 = Some (PdfFile d).
Proof.
  intros H Hout Hd Hw. apply os_merge_cmd_ok in H as (readers & _ & ->).
  set (d := merged_document readers) in *.
  assert (files (World (<[Path output := PdfFile d]> (files w))
                       (written w ++ [Path output])) !! Path output
          = Some (PdfFile d)) as Hfile by apply lookup_insert_eq.
  exists d. eexists. split; [exact Hfile|]. split.
  - apply (os_merge_cmd_run Path parent mkdir_error write_outcome
             _ _ _ _ _ [d]); [exact Hout| |done..].
    constructor; [|constructor]. split; [exact Hfile|]. done.
  - cbn [files]. rewrite lookup_insert_eq. do 2 f_equal.
    apply remerge_document.
Qed.




(** X21.  Split with [overwrite] set can be run again: when the input is
    not one of its own targets and the operating system lets both runs
    through, a second run on the world the first run left succeeds and
    leaves every file as the first run did. *)
Theorem split_again_changes_nothing input spec outdir password pattern
    w reader ranges planned :
  files w !! Path input = Some (PdfFile reader) ->
  unlock (Path input) reader password = Ok () ->
  parse_ranges max_str_digits spec (total reader) = Ok ranges ->
  plan joinpath (stem (Path input)) (output_directory Path outdir)
    pattern ranges = Ok planned ->
  Path input ∉ planned ->
  let w' := world_after reader w (zip ranges planned) in
  mkdir_error w (output_directory Path outdir) = None ->
  accepted_along write_outcome reader w (zip ranges planned) ->
  mkdir_error w' (output_directory Path outdir) = None ->
  accepted_along write_outcome reader w' (zip ranges planned) ->
  exists w'',
    Os.split_cmd max_str_digits Path joinpath stem mkdir_error
      write_outcome input spec outdir password pattern true w = (Ok (), w') /\
    Os.split_cmd max_str_digits Path joinpath stem mkdir_error
      write_outcome input spec outdir password pattern true w' = (Ok (), w'') /\
    files w'' = files w' /\
    written w'' = written w ++ planned ++ planned.
Proof.
  intros Hf Hu Hp Hplan Hnot w' Hd Hacc Hd' Hacc'.
  pose proof (plan_ok _ _ _ _ _ _ Hplan) as HF.
  pose proof (Forall2_length _ _ _ HF) as Hlen.
  assert (files w' !! Path input = Some (PdfFile reader)) as Hf'.
  { cbn [files w' world_after]. rewrite after_writes_other; [done|].
    by rewrite snd_zip by lia. }
  eexists. split; [apply os_split_cmd_runs; eauto|].
  split; [apply os_split_cmd_runs; eauto|].
  cbn [world_after written files w']. split; [apply after_writes_twice|].
  rewrite snd_zip by lia. by rewrite <- app_assoc.
Qed.

End RefusalsMore.

(** * The properties where the operating system can refuse, at concrete inputs *)

Lemma merge_metadata_from_first_example :
  exists w' out md,
    Os.merge_cmd id plain_parent makes_any writes_any
      ["a.pdf"; "b.pdf"] "out.pdf" None false world_ab = (Ok (), w') /\
    files w' !! "out.pdf" = Some (PdfFile out) /\
    metadata out = Some md /\
    md !! "/Title" = Some (Some "Report") /\
    md !! "/Subject" = Some (Some "NullObject") /\
    md !! "Note" = None /\ md !! "/Author" = None /\
    md !! "/Producer" = Some (Some "pypdf").
Proof.
  assert (exists w', Os.merge_cmd id plain_parent makes_any writes_any
                       ["a.pdf"; "b.pdf"] "out.pdf" None false world_ab
                     = (Ok (), w')) as [w' H].
  { eexists. vm_compute. reflexivity. }
  destruct (merge_metadata_from_first id plain_parent makes_any writes_any
              _ _ _ _ _ _ _ H)
    as (r & out & md & Hr & Ho & Hmd & Hk & _).
  assert (files world_ab !! "a.pdf" = Some (PdfFile doc_a)) as Ea
    by (vm_compute; reflexivity).
  assert (r = doc_a) as -> by congruence.
  exists w', out, md. split; [exact H|]. split; [exact Ho|].
  split; [exact Hmd|]. repeat split.
  - rewrite (Hk "/Title"). vm_compute. reflexivity.
  - rewrite (Hk "/Subject"). vm_compute. reflexivity.
  - rewrite (Hk "Note"). vm_compute. reflexivity.
  - rewrite (Hk "/Author"). vm_compute. reflexivity.
  - rewrite (Hk "/Producer"). vm_compute. reflexivity.
Defined.

(** C5 as the specification words it fails, twice.  A key whose value is
    a null is not skipped: it is written, with the text [NullObject].
    And a first input without metadata does not give an output without a
    metadata block: the output carries the producer entry. *)
Lemma merge_null_written_and_producer_added :
  (metadata doc_a ≫= (.!! "/Subject")) = Some NullObject /\
  (exists w' out md,
     Os.merge_cmd id plain_parent makes_any writes_any
       ["a.pdf"; "b.pdf"] "out.pdf" None false world_ab = (Ok (), w') /\
     files w' !! "out.pdf" = Some (PdfFile out) /\
     metadata out = Some md /\
     md !! "/Subject" = Some (Some "NullObject") /\
     md !! "/Subject" <> None) /\
  metadata doc_bare = None /\
  (exists w' out,
     Os.merge_cmd id plain_parent makes_any writes_any
       ["c.pdf"; "b.pdf"] "out.pdf" None false world_bare = (Ok (), w') /\
     files w' !! "out.pdf" = Some (PdfFile out) /\
     metadata out = Some {["/Producer" := Some "pypdf"]} /\
     metadata out <> None).
Proof.
  split; [vm_compute; reflexivity|]. split.
  { eexists _, _, _. repeat split; try (vm_compute; reflexivity).
    vm_compute. discriminate. }
  split; [reflexivity|].
  eexists _, _. repeat split; try (vm_compute; reflexivity).
  vm_compute. discriminate.
Qed.



Lemma split_reports_first_failure_example :
  Os.split_cmd 4300 id plain_join plain_stem (no_directory "out") writes_any
    "c.pdf" "1,9" "out" None None false world_ab
  = (Exit 2 "Input not found: c.pdf", world_ab) /\
  Os.split_cmd 4300 id plain_join plain_stem (no_directory "out") writes_any
    "b.pdf" "1,9" "out" None None false world_ab
  = (Raise (OSError "FileExistsError" "out"), world_ab) /\
  Os.split_cmd 4300 id plain_join plain_stem makes_any writes_any
    "b.pdf" "1,9" "out" None None false world_ab
  = (Exit 2 "Range out of bounds for file with 3 pages: 9", world_ab).
Proof.
  destruct (split_reports_first_failure 4300 id plain_join plain_stem
              (no_directory "out") writes_any
              "c.pdf" "1,9" "out" None None false world_ab)
    as (H1 & _).
  destruct (split_reports_first_failure 4300 id plain_join plain_stem
              (no_directory "out") writes_any
              "b.pdf" "1,9" "out" None None false world_ab)
    as (_ & H2 & _).
  destruct (split_reports_first_failure 4300 id plain_join plain_stem
              makes_any writes_any
              "b.pdf" "1,9" "out" None None false world_ab)
    as (_ & _ & H3).
  split; [apply H1; vm_compute; reflexivity|].
  split; [apply (H2 (PdfFile doc_b)); vm_compute; reflexivity|].
  destruct H3 as (_ & H3); [reflexivity|].
  destruct (H3 doc_b) as (_ & H4); [vm_compute; reflexivity|].
  destruct H4 as (H4 & _); [vm_compute; reflexivity|].
  apply H4. vm_compute. reflexivity.
Defined.



Lemma merge_of_merged_is_identity_example :
  exists w' w'' d,
    Os.merge_cmd id plain_parent makes_any writes_any
      ["a.pdf"; "b.pdf"] "out.pdf" None false world_ab = (Ok (), w') /\
    Os.merge_cmd id plain_parent makes_any writes_any
      ["out.pdf"] "again.pdf" None false w' = (Ok (), w'') /\
    files w' !! "out.pdf" = Some (PdfFile d) /\
    files w'' !! "again.pdf" = Some (PdfFile d).
Proof.
  assert (exists w', Os.merge_cmd id plain_parent makes_any writes_any
                       ["a.pdf"; "b.pdf"] "out.pdf" None false world_ab
                     = (Ok (), w')) as [w' H].
  { eexists. vm_compute. reflexivity. }
  destruct (merge_of_merged_is_identity id plain_parent makes_any writes_any
              _ _ _ _ _ _ "again.pdf" None false H)
    as (d & w'' & Hd & Hm & Hd').
  - left.
    assert (files (Os.merge_cmd id plain_parent makes_any writes_any
                     ["a.pdf"; "b.pdf"] "out.pdf" None false world_ab).2
              !! "again.pdf" = None) as Hf by (vm_compute; reflexivity).
    rewrite H in Hf. exact Hf.
  - reflexivity.
  - reflexivity.
  - exists w', w'', d. auto.
Defined.




Lemma split_again_changes_nothing_example :
  exists w' w'',
    Os.split_cmd 4300 id plain_join plain_stem makes_any writes_any
      "b.pdf" "1,2-3" "out" None None true world_ab = (Ok (), w') /\
    Os.split_cmd 4300 id plain_join plain_stem makes_any writes_any
      "b.pdf" "1,2-3" "out" None None true w' = (Ok (), w'') /\
    files w'' = files w'.
Proof.
  destruct (split_again_changes_nothing 4300 id plain_join plain_stem
              makes_any writes_any
              "b.pdf" "1,2-3" "out" None None world_ab doc_b
              [(1, 1); (2, 3)] ["out/b_p1.pdf"; "out/b_p2-3.pdf"])
    as (w'' & H1 & H2 & Hf & _).
  - vm_compute. reflexivity.
  - vm_compute. reflexivity.
  - vm_compute. reflexivity.
  - vm_compute. reflexivity.
  - intros Hin. apply (bool_decide_pack _) in Hin. vm_compute in Hin.
    exact Hin.
  - reflexivity.
  - intros i rt _; reflexivity.
  - reflexivity.
  - intros i rt _; reflexivity.
  - eexists _, w''. split; [exact H1|]. split; [exact H2|]. exact Hf.
Defined.
